(** * Chess Analytics Preprocessor: the numeric core of [preprocess.py]

    The script computes, from the table [final_df] of rating observations,
    an evaluation grid ([np.linspace] over the padded rating range), an
    Epanechnikov kernel density estimate per month ([kde_epanechnikov]) and
    the largest peak over all months ([global_max_density]).

    Numbers.  The script computes on NumPy [float64] values.  They are
    rendered here by the type [f64]: a finite value is an exact rational
    (every operation returns it in lowest terms, so that equal results are
    equal terms), and the three special values [+inf], [-inf] and [NaN]
    follow the IEEE 754 rules for special operands.  Rounding and overflow of finite results are not
    rendered: finite arithmetic is exact.  The sign of zero is not rendered
    either; a zero divisor counts as [+0].

    Control.  A Python call either returns a value or raises; a [def] of the
    script is rendered as a function into [outcome]. *)

From Stdlib Require Import String List ZArith QArith Qabs Qreduction Lia Lqa Bool.
From Stdlib Require Import Permutation Morphisms.
Import ListNotations.

Set Implicit Arguments.

(* ================================================================== *)
(** ** Outcomes of Python calls *)

Module Py.

(** The only exception the modelled NumPy calls can raise here:
    [np.max] of a zero-size array raises [ValueError]. *)
Inductive exn : Type := ValueError.

Inductive outcome (A : Type) : Type :=
| Returns (a : A)
| Raises (e : exn).

Arguments Returns {A} a.
Arguments Raises {A} e.

Definition bind {A B : Type} (c : outcome A) (k : A -> outcome B) : outcome B :=
  match c with
  | Returns a => k a
  | Raises e => Raises e
  end.

(** A call fails when it raises, whatever the exception. *)
Definition fails {A : Type} (c : outcome A) : Prop := exists e, c = Raises e.

End Py.
Export Py.

Declare Scope py_scope.
Delimit Scope py_scope with py.
Notation "x <- c ;; k" := (bind c (fun x => k))
  (at level 61, c at next level, right associativity) : py_scope.
Open Scope py_scope.

(* ================================================================== *)
(** ** [float64] values *)

Module F64.

Inductive f64 : Type :=
| Fin (q : Q)      (* a finite number *)
| PInf             (* +inf *)
| NInf             (* -inf *)
| NaN.

(** The finite value [q], in lowest terms. *)
Definition fin (q : Q) : f64 := Fin (Qred q).

Definition of_nat (n : nat) : f64 := fin (inject_Z (Z.of_nat n)).

Definition isnan (a : f64) : bool :=
  match a with NaN => true | _ => false end.

Definition is_finite (a : f64) : bool :=
  match a with Fin _ => true | _ => false end.

Definition fadd (a b : f64) : f64 :=
  match a, b with
  | NaN, _ | _, NaN => NaN
  | Fin p, Fin q => fin (p + q)
  | PInf, NInf | NInf, PInf => NaN
  | PInf, _ | _, PInf => PInf
  | NInf, _ | _, NInf => NInf
  end.

Definition fsub (a b : f64) : f64 :=
  match a, b with
  | NaN, _ | _, NaN => NaN
  | Fin p, Fin q => fin (p - q)
  | PInf, PInf | NInf, NInf => NaN
  | PInf, _ | _, NInf => PInf
  | NInf, _ | _, PInf => NInf
  end.

(** The infinity with the sign of [s * q] ([NaN] when [q] is zero);
    [s] is [true] for a positive factor. *)
Definition signed_inf (s : bool) (q : Q) : f64 :=
  match q ?= 0 with
  | Eq => NaN
  | Gt => if s then PInf else NInf
  | Lt => if s then NInf else PInf
  end.

Definition fmul (a b : f64) : f64 :=
  match a, b with
  | NaN, _ | _, NaN => NaN
  | Fin p, Fin q => fin (p * q)
  | Fin p, PInf | PInf, Fin p => signed_inf true p
  | Fin p, NInf | NInf, Fin p => signed_inf false p
  | PInf, PInf | NInf, NInf => PInf
  | PInf, NInf | NInf, PInf => NInf
  end.

Definition fdiv (a b : f64) : f64 :=
  match a, b with
  | NaN, _ | _, NaN => NaN
  | Fin p, Fin q =>
      match q ?= 0 with
      | Eq => signed_inf true p          (* x / 0: an infinity, 0 / 0: NaN *)
      | _ => fin (p / q)
      end
  | Fin _, PInf | Fin _, NInf => Fin 0
  | PInf, Fin q => match q ?= 0 with Lt => NInf | _ => PInf end
  | NInf, Fin q => match q ?= 0 with Lt => PInf | _ => NInf end
  | PInf, PInf | PInf, NInf | NInf, PInf | NInf, NInf => NaN
  end.

Definition fabs (a : f64) : f64 :=
  match a with
  | Fin q => fin (Qabs q)
  | PInf | NInf => PInf
  | NaN => NaN
  end.

(** [a > b]; every comparison with [NaN] is false. *)
Definition fgt (a b : f64) : bool :=
  match a, b with
  | NaN, _ | _, NaN => false
  | Fin p, Fin q => match p ?= q with Gt => true | _ => false end
  | PInf, PInf | NInf, _ | Fin _, PInf => false
  | PInf, _ | Fin _, NInf => true
  end.

(** [a >= b]. *)
Definition fge (a b : f64) : bool :=
  match a, b with
  | NaN, _ | _, NaN => false
  | Fin p, Fin q => match p ?= q with Lt => false | _ => true end
  | PInf, _ | _, NInf => true
  | _, _ => false
  end.

(** [a == b]. *)
Definition feqb (a b : f64) : bool :=
  match a, b with
  | Fin p, Fin q => match p ?= q with Eq => true | _ => false end
  | PInf, PInf | NInf, NInf => true
  | _, _ => false
  end.

(** A value is in normal form when its rational is in lowest terms. *)
Definition canonical (a : f64) : Prop :=
  match a with Fin q => Qred q = q | _ => True end.

(** The values the comparison [>] orders totally: not [NaN], and in
    normal form. *)
Definition ordered (a : f64) : Prop := isnan a = false /\ canonical a.

(** A finite number or [NaN]: no infinity. *)
Definition finite_or_nan (c : f64) : Prop := is_finite c = true \/ c = NaN.

End F64.
Export F64.

(* ================================================================== *)
(** ** The NumPy and pandas operations the script calls *)

Module Np.

(** [np.sum] of a one-dimensional array (0 for the empty array). *)
Definition np_sum (a : list f64) : f64 := fold_left fadd a (Fin 0).

(** [np.mean]: the sum divided by the number of items; the mean of a
    zero-size array is [0 / 0], that is [NaN]. *)
Definition np_mean (a : list f64) : f64 := fdiv (np_sum a) (of_nat (length a)).

(** [np.maximum]: the larger operand, [NaN] when either is [NaN]. *)
Definition np_maximum (a b : f64) : f64 :=
  if isnan a then a else if isnan b then b else if fgt b a then b else a.

(** [np.max] of a one-dimensional array: raises [ValueError] on a
    zero-size array. *)
Definition np_max (a : list f64) : outcome f64 :=
  match a with
  | [] => Raises ValueError
  | x :: xs => Returns (fold_left np_maximum xs x)
  end.

(** [a[-1] = v] on a non-empty array (an empty one is left as it is). *)
Fixpoint set_last (a : list f64) (v : f64) : list f64 :=
  match a with
  | [] => []
  | [_] => [v]
  | x :: xs => x :: set_last xs v
  end.

(** [np.linspace(start, stop, num)] with [endpoint=True], following
    NumPy's implementation: [arange(0, num)] scaled by the step
    [(stop - start) / (num - 1)] (through [y / div * delta] when the step
    is zero), shifted by [start], the last item overwritten by [stop]. *)
Definition linspace (start stop : f64) (num : nat) : list f64 :=
  let div := (num - 1)%nat in
  let delta := fsub stop start in
  let y := map of_nat (seq 0 num) in
  let y :=
    if (0 <? div)%nat then
      let step := fdiv delta (of_nat div) in
      if feqb step (Fin 0)
      then map (fun yi => fmul (fdiv yi (of_nat div)) delta) y
      else map (fun yi => fmul yi step) y
    else map (fun yi => fmul yi delta) y in
  let y := map (fun yi => fadd yi start) y in
  if (1 <? num)%nat then set_last y stop else y.

(** The smaller and the larger of two values, as a reduction uses them. *)
Definition fmin (a b : f64) : f64 := if fgt a b then b else a.
Definition fmax (a b : f64) : f64 := if fgt b a then b else a.

(** [Series.min()] and [Series.max()] of pandas, with the default
    [skipna=True]: [NaN] items are left out, and the result is [NaN] when
    nothing remains. *)
Definition dropna (s : list f64) : list f64 := filter (fun x => negb (isnan x)) s.

Definition series_min (s : list f64) : f64 :=
  match dropna s with
  | [] => NaN
  | x :: xs => fold_left fmin xs x
  end.

Definition series_max (s : list f64) : f64 :=
  match dropna s with
  | [] => NaN
  | x :: xs => fold_left fmax xs x
  end.

(** [Series.unique()]: the distinct items in order of first appearance. *)
Fixpoint unique (s : list Z) : list Z :=
  match s with
  | [] => []
  | x :: xs => x :: filter (fun y => negb (y =? x)%Z) (unique xs)
  end.

End Np.
Export Np.

(* ================================================================== *)
(** ** The script *)

(** A row of [final_df = full_data[['month', 'fed', 'rating']]]. *)
Record row : Type := Row { month : Z; fed : string; rating : f64 }.

Definition dataframe : Type := list row.

(** [final_df['rating']]. *)
Definition ratings (final_df : dataframe) : list f64 := map rating final_df.

(** *** 4. Dynamic grid calculation *)

Definition min_r (final_df : dataframe) : f64 := series_min (ratings final_df).
Definition max_r (final_df : dataframe) : f64 := series_max (ratings final_df).
Definition padding : f64 := Fin 100.

Definition grid_min (final_df : dataframe) : f64 := fsub (min_r final_df) padding.
Definition grid_max (final_df : dataframe) : f64 := fadd (max_r final_df) padding.
Definition x_grid (final_df : dataframe) : list f64 :=
  linspace (grid_min final_df) (grid_max final_df) 60.
Definition bandwidth : f64 := Fin 40.

(** *** 5. Kernel density estimation (Epanechnikov) *)

(** One entry of the matrix [k]: [u = (g - v) / bw],
    [k = 0.75 * (1 - u**2)], and [k = 0] where [np.abs(u) > 1]. *)
Definition kernel_entry (g v bw : f64) : f64 :=
  let u := fdiv (fsub g v) bw in
  let k := fmul (Fin (3 # 4)) (fsub (Fin 1) (fmul u u)) in
  if fgt (fabs u) (Fin 1) then Fin 0 else k.

(** [kde_epanechnikov(values, grid, bw)]: one matrix row per grid point,
    one column per value; the result is [np.mean(k, axis=1) / bw]. *)
Definition kde_epanechnikov (values grid : list f64) (bw : f64) : outcome (list f64) :=
  let k := map (fun g => map (fun v => kernel_entry g v bw) values) grid in
  Returns (map (fun k_row => fdiv (np_mean k_row) bw) k).

(** *** 6. Global max scan *)

(** [final_df[final_df['month'] == m]['rating'].values]. *)
Definition month_ratings (final_df : dataframe) (m : Z) : list f64 :=
  map rating (filter (fun r => (month r =? m)%Z) final_df).

Section Scan.

Variable final_df : dataframe.
Variable grid : list f64.
Variable bw : f64.

(** The body of the [for m in months] loop, from the accumulator
    [global_max_density] before the iteration to the one after it. *)
Definition loop_body (acc : f64) (m : Z) : outcome f64 :=
  let mr := month_ratings final_df m in
  if (0 <? length mr)%nat then
    density <- kde_epanechnikov mr grid bw ;;
    peak <- np_max density ;;
    if fgt peak acc then Returns peak else Returns acc
  else Returns acc.

(** The loop over a list of months. *)
Fixpoint for_months (months : list Z) (acc : f64) : outcome f64 :=
  match months with
  | [] => Returns acc
  | m :: rest => acc' <- loop_body acc m ;; for_months rest acc'
  end.

(** [months = final_df['month'].unique()]. *)
Definition months : list Z := unique (map month final_df).

(** The value of [global_max_density] after the loop; it starts at 0. *)
Definition global_max_density : outcome f64 := for_months months (Fin 0).

End Scan.

(** *** 7. The statistics written into [structure.json] *)

Record stats : Type :=
  Stats { maxDensity : f64; minRating : f64; maxRating : f64 }.

(** Sections 4 to 7 of the script, from [final_df] to [hierarchy["stats"]]. *)
Definition preprocess (final_df : dataframe) : outcome stats :=
  g <- global_max_density final_df (x_grid final_df) bandwidth ;;
  Returns (Stats g (grid_min final_df) (grid_max final_df)).


(* ================================================================== *)
(** ** The density formula, as the specification words it *)

Module Spec.

(** The sum of a list of rationals. *)
Definition Qsum (l : list Q) : Q := fold_right Qplus 0 l.

(** The kernel weight [K(u)]: [0.75 * (1 - u^2)] when [|u| <= 1],
    and 0 otherwise. *)
Definition kernel_weight (u : Q) : Q :=
  if Qle_bool (Qabs u) 1 then (3 # 4) * (1 - u * u) else 0.

(** The curve value at [g]: the sum over all observations [v] of
    [K((g - v) / b)], divided by [len(values) * b]. *)
Definition density_at (values : list Q) (b g : Q) : Q :=
  Qsum (map (fun v => kernel_weight ((g - v) / b)) values)
  / (inject_Z (Z.of_nat (List.length values)) * b).

End Spec.
Import Spec.

(* ================================================================== *)
(** ** Peaks of the periods *)

Section Peaks.

Variable final_df : dataframe.
Variable grid : list f64.
Variable bw : f64.

(** The peak of the density curve of month [m]:
    [np.max(kde_epanechnikov(month_ratings, x_grid, bandwidth))]. *)
Definition period_peak (m : Z) : outcome f64 :=
  density <- kde_epanechnikov (month_ratings final_df m) grid bw ;;
  np_max density.

(** The peaks of the months of a list that have observations, in the
    order of the list. *)
Fixpoint peaks (ms : list Z) : outcome (list f64) :=
  match ms with
  | [] => Returns []
  | m :: rest =>
      if (0 <? List.length (month_ratings final_df m))%nat then
        p <- period_peak m ;; ps <- peaks rest ;; Returns (p :: ps)
      else peaks rest
  end.

End Peaks.

(* ================================================================== *)
(** ** Vocabulary of the statements *)

(** Every rating of the table is a finite number. *)
Definition all_finite (final_df : dataframe) : Prop :=
  Forall (fun r => is_finite (rating r) = true) final_df.

(** [r] is the maximum of 0 and the peaks of the months of [ms] that
    have observations. *)
Definition max_of_zero_and_peaks
  (final_df : dataframe) (gs : list Q) (b : Q) (r : f64) (ms : list Z) : Prop :=
  (r = Fin 0 \/
   exists m, In m ms /\ month_ratings final_df m <> []
             /\ period_peak final_df (map Fin gs) (Fin b) m = Returns r)
  /\ fge r (Fin 0) = true
  /\ forall m, In m ms -> month_ratings final_df m <> [] ->
       exists p, period_peak final_df (map Fin gs) (Fin b) m = Returns p
                 /\ fge r p = true.

(** Two runs of [peaks] agree up to the order of the peaks: both raise,
    or both return and the lists are permutations of each other. *)
Definition same_peaks (o o' : outcome (list f64)) : Prop :=
  match o, o' with
  | Returns ps, Returns ps' => Permutation ps ps'
  | Raises e, Raises e' => e = e'
  | _, _ => False
  end.

(** Consecutive items of a sequence increase strictly. *)
Definition increasing (l : list f64) : Prop :=
  forall i a c, nth_error l i = Some a -> nth_error l (S i) = Some c ->
                fgt c a = true.

(** Consecutive items of a sequence are one common step apart. *)
Definition evenly_spaced (l : list f64) : Prop :=
  exists step, forall i a c,
    nth_error l i = Some a -> nth_error l (S i) = Some c -> fsub c a = step.

(** The [i]-th point of the grid from [s] to [t] in [num] points. *)
Definition grid_point (s t : Q) (num i : nat) : Q :=
  s + inject_Z (Z.of_nat i) * ((t - s) / inject_Z (Z.of_nat (num - 1))).

(** Sample data: three observations at 1000 in one month (scenario 1 of the
    specification), five grid points, bandwidth 40. *)
Definition sample_values : list Q := [1000; 1000; 1000].
Definition sample_grid : list Q := [800; 900; 1000; 1100; 1200].
Definition sample_df : dataframe :=
  [Row 201501 "FRA" (Fin 1000); Row 201501 "USA" (Fin 1000);
   Row 201502 "FRA" (Fin 1500); Row 201501 "IND" (Fin 1000)].

(** A table with one good month and one month whose only rating is [NaN]. *)
Definition nan_df : dataframe :=
  [Row 201501 "FRA" (Fin 1000); Row 201502 "USA" NaN].

(* ================================================================== *)
(** ** Vocabulary of the further statements *)

(** The value in normal form: the same number, in lowest terms. *)
Definition canon (a : f64) : f64 :=
  match a with Fin q => fin q | _ => a end.

(** [NaN], or a finite number between 0 and [hi]. *)
Definition nan_or_within (hi : Q) (c : f64) : Prop :=
  c = NaN \/ exists q, c = Fin q /\ 0 <= q <= hi.

(* ================================================================== *)
(** ** The tables the script loads *)

(** A cell of a text column; [None] is a missing value ([NaN]). *)
Definition cell : Type := option string.

(** Equality of two join keys: [merge] matches equal strings, and it also
    matches a missing key with a missing key. *)
Definition cell_eqb (a b : cell) : bool :=
  match a, b with
  | Some x, Some y => String.eqb x y
  | None, None => true
  | _, _ => false
  end.

(** The columns of [countries.tsv] and of [iso3.tsv] that the script uses:
    [ioc], [#country] and [alpha3] are read from [countries], and [#alpha3],
    [subregion] and [region] from [iso3], as the script's selection of
    columns after the merge requires (a name the two tables shared would be
    suffixed by [merge] and the selection would not find it). *)
Record countries_row : Type :=
  CountriesRow { ioc : cell; country : cell; alpha3 : cell }.
Record iso3_row : Type :=
  Iso3Row { iso_alpha3 : cell; iso_subregion : cell; iso_region : cell }.

(** A row of [merged_locs], with its columns as the script renames them:
    [fed], [country_name], [subregion], [region]. *)
Record loc_row : Type :=
  LocRow { loc_fed : cell; loc_country_name : cell;
           loc_subregion : cell; loc_region : cell }.

(** A row of [ratings] ([#id], [rating], [month]) and a row of [players]
    ([#id], [fed]). *)
Record ratings_row : Type :=
  RatingsRow { rt_id : cell; rt_rating : f64; rt_month : Z }.
Record players_row : Type :=
  PlayersRow { pl_id : cell; pl_fed : string }.

(** *** 2. Build hierarchy *)

(** [countries.merge(iso3, left_on='alpha3', right_on='#alpha3', how='left')]
    restricted to [['ioc', '#country', 'subregion', 'region']]: the rows of
    [countries] in their order, each paired with every row of [iso3] of the
    same code, in the order of [iso3]; a row without a match is kept once,
    with missing [subregion] and [region]. *)
Definition merged_locs (countries : list countries_row) (iso3 : list iso3_row)
  : list loc_row :=
  flat_map
    (fun c =>
       match filter (fun i => cell_eqb (alpha3 c) (iso_alpha3 i)) iso3 with
       | [] => [LocRow (ioc c) (country c) None None]
       | hits => map (fun i => LocRow (ioc c) (country c)
                                      (iso_subregion i) (iso_region i)) hits
       end)
    countries.

(** A Python [dict] with string keys: the keys in insertion order. *)
Definition dict (V : Type) : Type := list (string * V).

(** [d.get(k)]. *)
Fixpoint dict_get (V : Type) (k : string) (d : dict V) : option V :=
  match d with
  | [] => None
  | (k', v) :: d' => if String.eqb k k' then Some v else dict_get k d'
  end.

(** [k in d]. *)
Definition dict_mem (V : Type) (k : string) (d : dict V) : bool :=
  match dict_get k d with Some _ => true | None => false end.

(** [d[k] = v]: an existing key keeps its place, a new key goes last. *)
Fixpoint dict_set (V : Type) (k : string) (v : V) (d : dict V) : dict V :=
  match d with
  | [] => [(k, v)]
  | (k', v') :: d' =>
      if String.eqb k k' then (k', v) :: d' else (k', v') :: dict_set k v d'
  end.

(** A leaf of the tree: [{"name": c, "id": fed}]. *)
Record country_node : Type := CountryNode { cn_name : cell; cn_id : cell }.

(** [regions]: region name to subregion name to list of countries. *)
Definition regions_dict : Type := dict (dict (list country_node)).

(** [if pd.isna(r): r = "Other"]. *)
Definition or_other (c : cell) : string :=
  match c with None => "Other"%string | Some x => x end.

(** The body of the loop over [merged_locs.iterrows()]. *)
Definition add_country (regions : regions_dict) (row : loc_row) : regions_dict :=
  let r := or_other (loc_region row) in
  let s := or_other (loc_subregion row) in
  let regions := if dict_mem r regions then regions else dict_set r [] regions in
  let subs := match dict_get r regions with Some subs => subs | None => [] end in
  let subs := if dict_mem s subs then subs else dict_set s [] subs in
  let countries_list := match dict_get s subs with Some l => l | None => [] end in
  dict_set r
    (dict_set s (countries_list ++ [CountryNode (loc_country_name row) (loc_fed row)])
       subs)
    regions.

(** [regions] after the loop. *)
Definition build_regions (rows : list loc_row) : regions_dict :=
  fold_left add_country rows [].

(** The nodes of the JSON tree. *)
Record subregion_node : Type :=
  SubregionNode { sn_name : string; sn_id : string; sn_children : list country_node }.
Record region_node : Type :=
  RegionNode { rn_name : string; rn_id : string; rn_children : list subregion_node }.
Record hierarchy_node : Type :=
  HierarchyNode { h_name : string; h_id : string;
                  h_children : list region_node; h_stats : option stats }.

(** The conversion of [regions] into the list of region nodes. *)
Definition region_nodes (regions : regions_dict) : list region_node :=
  map (fun rs =>
         RegionNode (fst rs) (fst rs)
           (map (fun sc => SubregionNode (fst sc) (fst sc) (snd sc)) (snd rs)))
      regions.

(** [hierarchy] before the statistics are attached. *)
Definition hierarchy (rows : list loc_row) : hierarchy_node :=
  HierarchyNode "World" "World" (region_nodes (build_regions rows)) None.

(** *** 3. Process ratings *)

(** [ratings.merge(players, how='inner', on '#id')[['month', 'fed', 'rating']]]:
    one row per pair of a rating and a player of the same id.  The rows are
    listed in the order of [ratings] (pandas from 2.2 on; earlier versions
    group them by id); the statistics do not depend on that order.  The
    [month] and [fed] cells are taken as present: the model has no missing
    month or federation. *)
Definition final_df_of (ratings_t : list ratings_row) (players : list players_row)
  : dataframe :=
  flat_map
    (fun r =>
       map (fun p => Row (rt_month r) (pl_fed p) (rt_rating r))
           (filter (fun p => cell_eqb (rt_id r) (pl_id p)) players))
    ratings_t.

(** *** 7. Save results *)

(** [structure.json]: the hierarchy with [hierarchy["stats"]] attached; the
    hierarchy is built first, the statistics are computed after it. *)
Definition structure (countries : list countries_row) (iso3 : list iso3_row)
           (ratings_t : list ratings_row) (players : list players_row)
  : outcome hierarchy_node :=
  let h := hierarchy (merged_locs countries iso3) in
  s <- preprocess (final_df_of ratings_t players) ;;
  Returns (HierarchyNode (h_name h) (h_id h) (h_children h) (Some s)).

(** *** Reading the tree *)

(** The countries listed under region [r] and subregion [s]. *)
Definition children_of (r s : string) (nodes : list region_node) : list country_node :=
  match find (fun n => String.eqb r (rn_name n)) nodes with
  | None => []
  | Some n =>
      match find (fun n' => String.eqb s (sn_name n')) (rn_children n) with
      | None => []
      | Some n' => sn_children n'
      end
  end.

(** All the leaves of the tree, in the order of the tree. *)
Definition leaves (nodes : list region_node) : list country_node :=
  flat_map (fun n => flat_map sn_children (rn_children n)) nodes.

(** The distinct strings of a list, in order of first appearance. *)
Fixpoint first_seen (l : list string) : list string :=
  match l with
  | [] => []
  | x :: xs => x :: filter (fun y => negb (String.eqb y x)) (first_seen xs)
  end.

(** The leaf that the loop makes of a row. *)
Definition leaf_of (row : loc_row) : country_node :=
  CountryNode (loc_country_name row) (loc_fed row).

(** The rows that the loop files under region [r] and subregion [s]. *)
Definition filed_under (r s : string) (row : loc_row) : bool :=
  String.eqb (or_other (loc_region row)) r && String.eqb (or_other (loc_subregion row)) s.

(** Sample tables. *)
Definition sample_countries : list countries_row :=
  [CountriesRow (Some "FRA") (Some "France") (Some "FRA");
   CountriesRow (Some "IND") (Some "India") (Some "IND");
   CountriesRow (Some "FID") (Some "FIDE") None;
   CountriesRow (Some "GER") (Some "Germany") (Some "DEU")]%string.
Definition sample_iso3 : list iso3_row :=
  [Iso3Row (Some "DEU") (Some "Western Europe") (Some "Europe");
   Iso3Row (Some "IND") (Some "Southern Asia") (Some "Asia");
   Iso3Row (Some "FRA") (Some "Western Europe") (Some "Europe")]%string.
Definition sample_ratings : list ratings_row :=
  [RatingsRow (Some "1") (Fin 1000) 201501; RatingsRow (Some "2") (Fin 1000) 201501;
   RatingsRow (Some "9") (Fin 2000) 201501; RatingsRow (Some "1") (Fin 1500) 201502]%string.
Definition sample_players : list players_row :=
  [PlayersRow (Some "1") "FRA"; PlayersRow (Some "2") "IND"]%string.

(** *** Reading [regions] *)

(** [regions[r]], or the empty dictionary when [r] is no key. *)
Definition subs_of (r : string) (regions : regions_dict) : dict (list country_node) :=
  match dict_get r regions with Some subs => subs | None => [] end.

(** [regions[r][s]], or the empty list when a key is absent. *)
Definition filed_at (r s : string) (regions : regions_dict) : list country_node :=
  match dict_get s (subs_of r regions) with Some l => l | None => [] end.

(** All the countries of [regions], in the order of the dictionaries. *)
Definition all_countries (regions : regions_dict) : list country_node :=
  flat_map (fun rs => flat_map (fun sc => snd sc) (snd rs)) regions.

(** No key twice, no region without subregion, no subregion without
    country. *)
Definition well_formed (regions : regions_dict) : Prop :=
  NoDup (map fst regions)
  /\ forall r subs, dict_get r regions = Some subs ->
       subs <> [] /\ NoDup (map fst subs)
       /\ forall s cl, dict_get s subs = Some cl -> cl <> [].

(** [x] is none of the strings of [K]. *)
Definition not_in (K : list string) (x : string) : bool :=
  negb (existsb (String.eqb x) K).

(** The region and the subregion under which the loop files a row. *)
Definition region_of (row : loc_row) : string := or_other (loc_region row).
Definition subregion_of (row : loc_row) : string := or_other (loc_subregion row).

(** A region node whose [id] is its [name], with at least one subregion and
    no subregion name twice, each subregion with [id] equal to [name] and at
    least one country. *)
Definition region_node_ok (n : region_node) : Prop :=
  rn_id n = rn_name n /\ rn_children n <> []
  /\ NoDup (map sn_name (rn_children n))
  /\ Forall (fun n' => sn_id n' = sn_name n' /\ sn_children n' <> []) (rn_children n).

(** The leaf of a country of [countries.tsv]. *)
Definition country_leaf (c : countries_row) : country_node :=
  CountryNode (country c) (ioc c).

(** The rows of [merged_locs] that come from one row of [countries]. *)
Definition rows_of (iso3 : list iso3_row) (c : countries_row) : list loc_row :=
  match filter (fun i => cell_eqb (alpha3 c) (iso_alpha3 i)) iso3 with
  | [] => [LocRow (ioc c) (country c) None None]
  | hits => map (fun i => LocRow (ioc c) (country c)
                                 (iso_subregion i) (iso_region i)) hits
  end.

(** The table with [c] added to every rating. *)
Definition shift_ratings (c : Q) (final_df : dataframe) : dataframe :=
  map (fun r => Row (month r) (fed r) (fadd (rating r) (Fin c))) final_df.

(* ================================================================== *)
(** ** Tactics *)

(** From [H : In y (map f l)], the item [x] of [l] with [y = f x],
    substituted for [y]. *)
Ltac in_map_inv H x :=
  apply in_map_iff in H; destruct H as [x [<- _]].

(* ================================================================== *)
(** ** Arithmetic of [f64] on finite values *)

Module F64Facts.

Lemma fin_eq (p q : Q) : p == q -> fin p = fin q.
Proof. intros H. unfold fin. f_equal. now apply Qred_complete. Qed.

Lemma fin_canonical (q : Q) : canonical (fin q).
Proof. simpl. apply Qred_complete, Qred_correct. Qed.

Lemma of_nat_fin (n : nat) : of_nat n = fin (inject_Z (Z.of_nat n)).
Proof. reflexivity. Qed.

Lemma fadd_fin (p q : Q) : fadd (fin p) (fin q) = fin (p + q).
Proof. simpl. apply fin_eq. now rewrite !Qred_correct. Qed.

Lemma fsub_fin (p q : Q) : fsub (fin p) (fin q) = fin (p - q).
Proof. simpl. apply fin_eq. now rewrite !Qred_correct. Qed.

Lemma fmul_fin (p q : Q) : fmul (fin p) (fin q) = fin (p * q).
Proof. simpl. apply fin_eq. now rewrite !Qred_correct. Qed.

Lemma fabs_fin (q : Q) : fabs (fin q) = fin (Qabs q).
Proof. simpl. apply fin_eq. now rewrite !Qred_correct. Qed.

Lemma fdiv_Fin (p q : Q) : ~ q == 0 -> fdiv (Fin p) (Fin q) = fin (p / q).
Proof.
  intros Hq. simpl. destruct (q ?= 0) eqn:E; try reflexivity.
  apply Qeq_alt in E. contradiction.
Qed.

Lemma fdiv_fin (p q : Q) : ~ q == 0 -> fdiv (fin p) (fin q) = fin (p / q).
Proof.
  intros Hq. unfold fin at 1 2. rewrite fdiv_Fin.
  - apply fin_eq. now rewrite !Qred_correct.
  - now rewrite Qred_correct.
Qed.

Lemma fgt_Fin (p q : Q) : fgt (Fin p) (Fin q) = true <-> q < p.
Proof.
  simpl. rewrite Qgt_alt. destruct (p ?= q); split; congruence.
Qed.

Lemma fgt_Fin_false (p q : Q) : fgt (Fin p) (Fin q) = false <-> p <= q.
Proof.
  simpl. rewrite Qle_alt. destruct (p ?= q); split; congruence.
Qed.

Lemma fge_Fin (p q : Q) : fge (Fin p) (Fin q) = true <-> q <= p.
Proof.
  simpl. rewrite Qge_alt. destruct (p ?= q); split; congruence.
Qed.

Lemma fgt_fin (p q : Q) : fgt (fin p) (fin q) = true <-> q < p.
Proof. unfold fin. rewrite fgt_Fin, !Qred_correct. reflexivity. Qed.

Lemma fge_fin (p q : Q) : fge (fin p) (fin q) = true <-> q <= p.
Proof. unfold fin. rewrite fge_Fin, !Qred_correct. reflexivity. Qed.

Lemma fgt_fin_bool (p q : Q) : fgt (fin p) (fin q) = negb (Qle_bool p q).
Proof.
  destruct (Qle_bool p q) eqn:E; simpl negb.
  - apply Qle_bool_iff in E. unfold fin. apply fgt_Fin_false.
    now rewrite !Qred_correct.
  - apply fgt_fin. apply Qnot_le_lt. intros H.
    apply Qle_bool_iff in H. congruence.
Qed.

End F64Facts.
Import F64Facts.


(* ================================================================== *)
(** ** The estimator on finite data *)

Section KdeFinite.

Lemma Qsum_nonneg (l : list Q) : Forall (fun q => 0 <= q) l -> 0 <= Qsum l.
Proof.
  induction 1 as [|q l Hq _ IH]; simpl.
  - apply Qle_refl.
  - change 0 with (0 + 0). now apply Qplus_le_compat.
Qed.

#[global] Instance kernel_weight_comp : Proper (Qeq ==> Qeq) kernel_weight.
Proof.
  intros u u' H. unfold kernel_weight. rewrite H.
  destruct (Qle_bool (Qabs u') 1); [now rewrite H | reflexivity].
Qed.

Lemma kernel_weight_nonneg (u : Q) : 0 <= kernel_weight u.
Proof.
  unfold kernel_weight. destruct (Qle_bool (Qabs u) 1) eqn:E.
  - apply Qle_bool_iff in E. apply Qabs_Qle_condition in E.
    destruct E as [E1 E2]. nra.
  - apply Qle_refl.
Qed.

(** An entry of the matrix [k] on finite operands is the kernel weight
    of the normalized distance. *)
Lemma kernel_entry_finite (g v b : Q) :
  ~ b == 0 ->
  kernel_entry (Fin g) (Fin v) (Fin b) = fin (kernel_weight ((g - v) / b)).
Proof.
  intros Hb. unfold kernel_entry.
  change (fsub (Fin g) (Fin v)) with (fin (g - v)).
  unfold fin at 1 2 3. rewrite (fdiv_Fin _ Hb).
  set (u := Qred (g - v) / b).
  assert (Hu : u == (g - v) / b) by (unfold u; now rewrite Qred_correct).
  rewrite fabs_fin, fmul_fin.
  change (Fin 1) with (fin 1). change (Fin (3 # 4)) with (fin (3 # 4)).
  rewrite fsub_fin, fmul_fin, fgt_fin_bool.
  unfold kernel_weight. rewrite <- Hu.
  destruct (Qle_bool (Qabs u) 1); simpl negb; cbv iota.
  - apply fin_eq. now rewrite Hu.
  - reflexivity.
Qed.

(** The sum of a row of finite entries. *)
Lemma np_sum_fin (A : Type) (f : A -> Q) (l : list A) :
  np_sum (map (fun a => fin (f a)) l) = fin (Qsum (map f l)).
Proof.
  unfold np_sum. change (Fin 0) with (fin 0).
  assert (H : forall acc, fold_left fadd (map (fun a => fin (f a)) l) (fin acc)
                          = fin (acc + Qsum (map f l))).
  { induction l as [|a l IH]; intros acc; cbn [fold_left map].
    - apply fin_eq. unfold Qsum. cbn [fold_right]. ring.
    - rewrite fadd_fin, IH. apply fin_eq. unfold Qsum. cbn [fold_right]. ring. }
  rewrite H. apply fin_eq. ring.
Qed.

Lemma length_nonzero (A : Type) (l : list A) :
  l <> [] -> ~ inject_Z (Z.of_nat (List.length l)) == 0.
Proof.
  intros Hl H. destruct l as [|a l]; [congruence|].
  apply (Qeq_alt _ 0) in H. revert H. unfold Qcompare. simpl.
  destruct (Pos.of_succ_nat (List.length l)); discriminate.
Qed.

(** The row of the result for one grid point. *)
Lemma kde_row_finite (values : list Q) (g b : Q) :
  values <> [] -> ~ b == 0 ->
  fdiv (np_mean (map (fun v => kernel_entry (Fin g) v (Fin b)) (map Fin values))) (Fin b)
  = fin (density_at values b g).
Proof.
  intros Hv Hb. rewrite map_map.
  rewrite (map_ext _ (fun v => fin (kernel_weight ((g - v) / b))))
    by (intros v; now apply kernel_entry_finite).
  unfold np_mean. rewrite np_sum_fin, length_map, of_nat_fin.
  rewrite fdiv_fin by now apply length_nonzero.
  unfold fin at 1. rewrite fdiv_Fin by assumption.
  apply fin_eq. rewrite Qred_correct. unfold density_at.
  field. split; [assumption | now apply length_nonzero].
Qed.

End KdeFinite.

(* ================================================================== *)
(** ** The order of [f64] *)

Module F64Order.

Lemma fgt_irrefl (a : f64) : fgt a a = false.
Proof.
  destruct a as [p| | |]; simpl; try reflexivity.
  assert (H : (p ?= p) = Eq) by (apply Qeq_alt; reflexivity).
  now rewrite H.
Qed.

Lemma fgt_asym (a b : f64) : fgt a b = true -> fgt b a = false.
Proof.
  destruct a as [p| | |], b as [q| | |]; simpl; try congruence.
  rewrite <- (Qcompare_antisym p q). destruct (p ?= q); simpl; congruence.
Qed.

Lemma fgt_trans (a b c : f64) :
  fgt a b = true -> fgt b c = true -> fgt a c = true.
Proof.
  destruct a as [p| | |], b as [q| | |], c as [r| | |];
    try (simpl; congruence); try (intros; reflexivity).
  rewrite !fgt_Fin. intros H1 H2. now apply Qlt_trans with q.
Qed.

Lemma fgt_total (a b : f64) :
  ordered a -> ordered b -> fgt a b = true \/ a = b \/ fgt b a = true.
Proof.
  intros [Ha Ca] [Hb Cb].
  destruct a as [p| | |], b as [q| | |]; simpl in *; try discriminate; auto.
  destruct (p ?= q) eqn:E.
  - right; left. apply Qeq_alt in E. apply Qred_complete in E. congruence.
  - right; right. rewrite <- (Qcompare_antisym p q), E. reflexivity.
  - now left.
Qed.

(** On ordered values [>=] is the negation of [<]. *)
Lemma fge_iff_not_fgt (a b : f64) :
  isnan a = false -> isnan b = false -> fge a b = negb (fgt b a).
Proof.
  destruct a as [p| | |], b as [q| | |]; simpl; try discriminate; auto.
  intros _ _. rewrite <- (Qcompare_antisym p q). now destruct (p ?= q).
Qed.

Lemma fge_refl (a : f64) : isnan a = false -> fge a a = true.
Proof.
  intros H. rewrite fge_iff_not_fgt by assumption. now rewrite fgt_irrefl.
Qed.

Lemma fge_trans (a b c : f64) :
  fge a b = true -> fge b c = true -> fge a c = true.
Proof.
  destruct a as [p| | |], b as [q| | |], c as [r| | |];
    try (simpl; congruence); try (intros; reflexivity).
  rewrite !fge_Fin. intros H1 H2. now apply Qle_trans with q.
Qed.

(** *** The maximum *)

Lemma fmax_nan_r (a : f64) : fmax a NaN = a.
Proof. unfold fmax. now destruct a. Qed.

Lemma fmax_cases (a b : f64) : fmax a b = a \/ fmax a b = b.
Proof. unfold fmax. destruct (fgt b a); auto. Qed.

Lemma fmax_ordered (a b : f64) : ordered a -> ordered b -> ordered (fmax a b).
Proof. intros Ha Hb. destruct (fmax_cases a b) as [-> | ->]; assumption. Qed.

Lemma fmax_comm (a b : f64) : ordered a -> ordered b -> fmax a b = fmax b a.
Proof.
  intros Ha Hb. unfold fmax.
  destruct (fgt b a) eqn:E1, (fgt a b) eqn:E2; try reflexivity.
  - apply fgt_asym in E1. congruence.
  - destruct (fgt_total Ha Hb) as [H | [H | H]]; congruence.
Qed.

Lemma fmax_assoc (a b c : f64) :
  ordered a -> ordered b -> ordered c ->
  fmax (fmax a b) c = fmax a (fmax b c).
Proof.
  intros Ha Hb Hc. unfold fmax.
  destruct (fgt b a) eqn:E1, (fgt c b) eqn:E2;
    rewrite ?E1, ?E2; try reflexivity.
  - now rewrite (fgt_trans _ _ _ E2 E1).
  - destruct (fgt c a) eqn:E3; [|reflexivity].
    destruct (fgt_total Hb Hc) as [H | [H | H]]; try congruence.
    rewrite (fgt_trans _ _ _ H E3) in E1. discriminate.
Qed.

Lemma fmax_ge_l (a b : f64) : ordered a -> ordered b -> fge (fmax a b) a = true.
Proof.
  intros Ha Hb. unfold fmax. destruct (fgt b a) eqn:E.
  - rewrite fge_iff_not_fgt by (apply Ha || apply Hb).
    now rewrite (fgt_asym _ _ E).
  - apply fge_refl, Ha.
Qed.

Lemma fmax_ge_r (a b : f64) : ordered a -> ordered b -> fge (fmax a b) b = true.
Proof.
  intros Ha Hb. rewrite fmax_comm by assumption. now apply fmax_ge_l.
Qed.

End F64Order.
Import F64Order.

(* ================================================================== *)
(** ** Peaks of the periods, and the scan as a maximum over them *)

Section PeakFacts.

Lemma signed_inf_canonical (s : bool) (q : Q) : canonical (signed_inf s q).
Proof. unfold signed_inf. destruct (q ?= 0), s; exact I. Qed.

Lemma fdiv_canonical (a b : f64) : canonical (fdiv a b).
Proof.
  destruct a as [p| | |], b as [q| | |]; simpl; try exact I; try reflexivity.
  - destruct (q ?= 0); try apply fin_canonical. apply signed_inf_canonical.
  - destruct (q ?= 0); exact I.
  - destruct (q ?= 0); exact I.
Qed.

Lemma fold_np_maximum_in (xs : list f64) (x : f64) :
  In (fold_left np_maximum xs x) (x :: xs).
Proof.
  revert x. induction xs as [|y xs IH]; intros x; cbn [fold_left].
  - now left.
  - destruct (IH (np_maximum x y)) as [H | H].
    + rewrite <- H. unfold np_maximum.
      destruct (isnan x); [now left|].
      destruct (isnan y); [right; now left|].
      destruct (fgt y x); [right; now left | now left].
    + right; now right.
Qed.

Lemma np_max_in (a : list f64) (p : f64) : np_max a = Returns p -> In p a.
Proof.
  destruct a as [|x xs]; simpl; [discriminate|].
  intros H. injection H as <-. apply fold_np_maximum_in.
Qed.

Lemma np_max_returns (a : list f64) : a <> [] -> exists p, np_max a = Returns p.
Proof. destruct a as [|x xs]; [congruence|]. intros _. simpl. eauto. Qed.

Lemma kde_canonical (values grid : list f64) (bw : f64) (curve : list f64) :
  kde_epanechnikov values grid bw = Returns curve -> Forall canonical curve.
Proof.
  unfold kde_epanechnikov. intros H. injection H as <-.
  rewrite map_map. apply Forall_forall. intros c Hc.
  in_map_inv Hc g. apply fdiv_canonical.
Qed.

Variable final_df : dataframe.
Variable grid : list f64.
Variable bw : f64.

Lemma period_peak_canonical (m : Z) (p : f64) :
  period_peak final_df grid bw m = Returns p -> canonical p.
Proof.
  unfold period_peak.
  destruct (kde_epanechnikov (month_ratings final_df m) grid bw) as [c|e] eqn:E;
    simpl; [|discriminate].
  intros H. apply np_max_in in H. apply kde_canonical in E.
  rewrite Forall_forall in E. auto.
Qed.

(** The loop body takes the maximum of the accumulator and the peak of
    the month, when the month has observations. *)
Lemma loop_body_peak (acc : f64) (m : Z) :
  loop_body final_df grid bw acc m =
  if (0 <? List.length (month_ratings final_df m))%nat
  then p <- period_peak final_df grid bw m ;; Returns (fmax acc p)
  else Returns acc.
Proof.
  unfold loop_body, period_peak.
  destruct (0 <? List.length (month_ratings final_df m))%nat; [|reflexivity].
  destruct (kde_epanechnikov (month_ratings final_df m) grid bw) as [c|e];
    simpl; [|reflexivity].
  destruct (np_max c) as [p|e]; simpl; [|reflexivity].
  unfold fmax. now destruct (fgt p acc).
Qed.

(** The loop returns the maximum of the accumulator and the peaks. *)
Lemma for_months_peaks (ms : list Z) (acc : f64) :
  for_months final_df grid bw ms acc =
  ps <- peaks final_df grid bw ms ;; Returns (fold_left fmax ps acc).
Proof.
  revert acc. induction ms as [|m ms IH]; intros acc; [reflexivity|].
  cbn [for_months peaks]. rewrite loop_body_peak.
  destruct (0 <? List.length (month_ratings final_df m))%nat.
  - destruct (period_peak final_df grid bw m) as [p|e]; simpl; [|reflexivity].
    rewrite IH. now destruct (peaks final_df grid bw ms).
  - simpl. apply IH.
Qed.

Lemma peaks_app (ms1 ms2 : list Z) :
  peaks final_df grid bw (ms1 ++ ms2) =
  ps1 <- peaks final_df grid bw ms1 ;;
  ps2 <- peaks final_df grid bw ms2 ;; Returns (ps1 ++ ps2).
Proof.
  induction ms1 as [|m ms1 IH]; cbn [app peaks].
  - simpl. now destruct (peaks final_df grid bw ms2).
  - destruct (0 <? List.length (month_ratings final_df m))%nat; [|exact IH].
    destruct (period_peak final_df grid bw m) as [p|e]; simpl; [|reflexivity].
    rewrite IH. destruct (peaks final_df grid bw ms1); simpl; [|reflexivity].
    now destruct (peaks final_df grid bw ms2).
Qed.

(** A value is among the peaks exactly when it is the peak of a month of
    the list that has observations. *)
Lemma peaks_in (ms : list Z) (ps : list f64) :
  peaks final_df grid bw ms = Returns ps ->
  forall p, In p ps <->
    exists m, In m ms /\ month_ratings final_df m <> []
              /\ period_peak final_df grid bw m = Returns p.
Proof.
  revert ps. induction ms as [|m ms IH]; intros ps; cbn [peaks].
  - intros H. injection H as <-. intros p. split; [intros []|].
    intros [m [[] _]].
  - destruct (0 <? List.length (month_ratings final_df m))%nat eqn:E.
    + destruct (period_peak final_df grid bw m) as [p0|e] eqn:Ep; simpl;
        [|discriminate].
      destruct (peaks final_df grid bw ms) as [ps0|e] eqn:Eps; simpl;
        [|discriminate].
      intros H. injection H as <-. intros p. specialize (IH ps0 eq_refl p).
      split.
      * intros [<- | Hin].
        -- exists m. repeat split; [now left | | assumption].
           apply Nat.ltb_lt in E. intros Hn. rewrite Hn in E. simpl in E. lia.
        -- apply IH in Hin. destruct Hin as [m' [H1 H2]].
           exists m'. split; [now right | assumption].
      * intros [m' [[<- | Hin] [H1 H2]]].
        -- left. congruence.
        -- right. apply IH. eauto.
    + intros H p. rewrite (IH ps H p). split.
      * intros [m' [H1 H2]]. exists m'. split; [now right | assumption].
      * intros [m' [[<- | Hin] [H1 H2]]]; [|eauto].
        apply Nat.ltb_ge in E. destruct (month_ratings final_df m); [congruence|].
        simpl in E. lia.
Qed.

Lemma peaks_canonical (ms : list Z) (ps : list f64) :
  peaks final_df grid bw ms = Returns ps -> Forall canonical ps.
Proof.
  intros H. apply Forall_forall. intros p Hp.
  apply (peaks_in _ H) in Hp. destruct Hp as [m [_ [_ Hm]]].
  now apply period_peak_canonical with m.
Qed.

End PeakFacts.

(* ================================================================== *)
(** ** The running maximum *)

Section RunningMax.

Lemma zero_ordered : ordered (Fin 0).
Proof. split; reflexivity. Qed.

(** One update of the accumulator by a peak in normal form ([NaN]
    allowed: it leaves the accumulator as it is). *)
Lemma fmax_step_ordered (acc p : f64) :
  ordered acc -> canonical p -> ordered (fmax acc p).
Proof.
  intros Ha Cp. destruct (isnan p) eqn:E.
  - destruct p; try discriminate. now rewrite fmax_nan_r.
  - apply fmax_ordered; [assumption | now split].
Qed.

Lemma fold_fmax_ordered (ps : list f64) (acc : f64) :
  ordered acc -> Forall canonical ps -> ordered (fold_left fmax ps acc).
Proof.
  intros Ha Hps. revert acc Ha.
  induction Hps as [|p ps Cp _ IH]; intros acc Ha; cbn [fold_left]; auto.
  apply IH. now apply fmax_step_ordered.
Qed.

Lemma fmax_swap (acc x y : f64) :
  ordered acc -> canonical x -> canonical y ->
  fmax (fmax acc x) y = fmax (fmax acc y) x.
Proof.
  intros Ha Cx Cy.
  destruct (isnan x) eqn:Ex; [destruct x; try discriminate; now rewrite !fmax_nan_r|].
  destruct (isnan y) eqn:Ey; [destruct y; try discriminate; now rewrite !fmax_nan_r|].
  assert (Hx : ordered x) by now split.
  assert (Hy : ordered y) by now split.
  rewrite !fmax_assoc by assumption. f_equal. now apply fmax_comm.
Qed.

(** The running maximum does not depend on the order of the peaks. *)
Lemma fold_fmax_perm (ps ps' : list f64) :
  Permutation ps ps' ->
  forall acc, ordered acc -> Forall canonical ps ->
  fold_left fmax ps acc = fold_left fmax ps' acc.
Proof.
  induction 1 as [|p ps ps' _ IH|p q ps|ps ps' ps'' H1 IH1 H2 IH2];
    intros acc Ha Hc; cbn [fold_left].
  - reflexivity.
  - inversion Hc; subst. apply IH; [now apply fmax_step_ordered | assumption].
  - inversion Hc as [|? ? Cq Hc']; subst. inversion Hc' as [|? ? Cp ?]; subst.
    f_equal. now apply fmax_swap.
  - rewrite IH1 by assumption. apply IH2; [assumption|].
    apply Forall_forall. intros x Hx. rewrite Forall_forall in Hc.
    apply Hc. apply Permutation_in with ps'; [now apply Permutation_sym | assumption].
Qed.

(** The running maximum from [fmax a c] is the maximum of [a] and the
    running maximum from [c]. *)
Lemma fold_fmax_shift (ps : list f64) (a c : f64) :
  ordered a -> ordered c -> Forall canonical ps ->
  fold_left fmax ps (fmax a c) = fmax a (fold_left fmax ps c).
Proof.
  intros Ha Hc Hps. revert c Hc.
  induction Hps as [|p ps Cp _ IH]; intros c Hc; cbn [fold_left]; [reflexivity|].
  destruct (isnan p) eqn:Ep.
  - destruct p; try discriminate. rewrite !fmax_nan_r. now apply IH.
  - assert (Hp : ordered p) by now split.
    rewrite fmax_assoc by assumption. apply IH. now apply fmax_ordered.
Qed.

(** The running maximum bounds the start value and every ordered peak,
    and it is one of them. *)
Lemma fold_fmax_ge_acc (ps : list f64) (acc : f64) :
  ordered acc -> Forall canonical ps -> fge (fold_left fmax ps acc) acc = true.
Proof.
  intros Ha Hps. revert acc Ha.
  induction Hps as [|p ps Cp _ IH]; intros acc Ha; cbn [fold_left].
  - apply fge_refl, Ha.
  - apply fge_trans with (fmax acc p).
    + apply IH. now apply fmax_step_ordered.
    + destruct (isnan p) eqn:Ep.
      * destruct p; try discriminate. rewrite fmax_nan_r. apply fge_refl, Ha.
      * apply fmax_ge_l; [assumption | now split].
Qed.

Lemma fold_fmax_ge_in (ps : list f64) (acc p : f64) :
  ordered acc -> Forall canonical ps -> In p ps -> isnan p = false ->
  fge (fold_left fmax ps acc) p = true.
Proof.
  intros Ha Hps. revert acc Ha.
  induction Hps as [|q ps Cq Hps IH]; intros acc Ha Hin Hp; [destruct Hin|].
  cbn [fold_left]. destruct Hin as [-> | Hin].
  - apply fge_trans with (fmax acc p).
    + apply fold_fmax_ge_acc; [now apply fmax_step_ordered | assumption].
    + apply fmax_ge_r; [assumption | now split].
  - apply IH; [now apply fmax_step_ordered | assumption | assumption].
Qed.

Lemma fold_fmax_in (ps : list f64) (acc : f64) :
  fold_left fmax ps acc = acc \/ In (fold_left fmax ps acc) ps.
Proof.
  revert acc. induction ps as [|p ps IH]; intros acc; cbn [fold_left]; [now left|].
  destruct (IH (fmax acc p)) as [H | H].
  - rewrite H. destruct (fmax_cases acc p) as [-> | ->]; [now left | right; now left].
  - right; now right.
Qed.

(** On ordered values [np.maximum] is the maximum, and [np.max] returns
    the greatest item. *)
Lemma np_maximum_fmax (a b : f64) :
  isnan a = false -> isnan b = false -> np_maximum a b = fmax a b.
Proof. intros Ha Hb. unfold np_maximum, fmax. now rewrite Ha, Hb. Qed.

Lemma fold_np_maximum_fmax (l : list f64) (a : f64) :
  ordered a -> Forall ordered l -> fold_left np_maximum l a = fold_left fmax l a.
Proof.
  intros Ha Hl. revert a Ha.
  induction Hl as [|x l Hx _ IH]; intros a Ha; cbn [fold_left]; [reflexivity|].
  rewrite np_maximum_fmax by (apply Ha || apply Hx).
  apply IH. now apply fmax_ordered.
Qed.

Lemma np_max_is_max (l : list f64) (p : f64) :
  Forall ordered l -> np_max l = Returns p ->
  forall c, In c l -> fge p c = true.
Proof.
  intros Hl Hp c Hc. destruct l as [|x l]; [destruct Hc|].
  inversion Hl as [|? ? Hx Hl']; subst. simpl in Hp. injection Hp as <-.
  rewrite fold_np_maximum_fmax by assumption.
  assert (Cl : Forall canonical l).
  { apply Forall_forall. intros y Hy. rewrite Forall_forall in Hl'. now apply Hl'. }
  destruct Hc as [<- | Hc].
  - now apply fold_fmax_ge_acc.
  - apply fold_fmax_ge_in; try assumption.
    rewrite Forall_forall in Hl'. now apply Hl'.
Qed.

End RunningMax.

(* ================================================================== *)
(** ** Iteration order of the scan *)

Section ScanOrder.

Variable final_df : dataframe.
Variable grid : list f64.
Variable bw : f64.

Lemma same_peaks_trans (o1 o2 o3 : outcome (list f64)) :
  same_peaks o1 o2 -> same_peaks o2 o3 -> same_peaks o1 o3.
Proof.
  destruct o1, o2, o3; simpl; try contradiction; try congruence.
  apply Permutation_trans.
Qed.

Lemma same_peaks_refl (o : outcome (list f64)) : same_peaks o o.
Proof. destruct o; simpl; auto. Qed.

Lemma peaks_perm (ms ms' : list Z) :
  Permutation ms ms' ->
  same_peaks (peaks final_df grid bw ms) (peaks final_df grid bw ms').
Proof.
  induction 1 as [|m ms ms' _ IH|m1 m2 ms|ms ms' ms'' _ IH1 _ IH2].
  - apply same_peaks_refl.
  - cbn [peaks].
    destruct (0 <? List.length (month_ratings final_df m))%nat; [|exact IH].
    destruct (period_peak final_df grid bw m) as [p|[]]; simpl.
    + destruct (peaks final_df grid bw ms), (peaks final_df grid bw ms');
        simpl in *; auto.
    + reflexivity.
  - cbn [peaks].
    destruct (0 <? List.length (month_ratings final_df m1))%nat,
             (0 <? List.length (month_ratings final_df m2))%nat;
      try apply same_peaks_refl.
    destruct (period_peak final_df grid bw m1) as [p1|[]],
             (period_peak final_df grid bw m2) as [p2|[]]; simpl;
      try reflexivity.
    destruct (peaks final_df grid bw ms); simpl; [apply perm_swap | reflexivity].
  - now apply same_peaks_trans with (peaks final_df grid bw ms').
Qed.

(** The scan over a list of months does not depend on its order. *)
Lemma for_months_perm (ms ms' : list Z) :
  Permutation ms ms' ->
  for_months final_df grid bw ms' (Fin 0) = for_months final_df grid bw ms (Fin 0).
Proof.
  intros H. rewrite !for_months_peaks. pose proof (peaks_perm H) as HP.
  destruct (peaks final_df grid bw ms) as [ps|e] eqn:E,
           (peaks final_df grid bw ms') as [ps'|e'] eqn:E';
    simpl in *; try contradiction; [|congruence].
  f_equal. symmetry. apply fold_fmax_perm; [assumption | apply zero_ordered|].
  now apply peaks_canonical with final_df grid bw ms.
Qed.

(** The scan over two lists of months is the maximum of the two scans. *)
Lemma for_months_app (msA msB : list Z) :
  for_months final_df grid bw (msA ++ msB) (Fin 0) =
  a <- for_months final_df grid bw msA (Fin 0) ;;
  b <- for_months final_df grid bw msB (Fin 0) ;;
  Returns (fmax a b).
Proof.
  rewrite !for_months_peaks, peaks_app.
  destruct (peaks final_df grid bw msA) as [pa|e] eqn:EA; simpl; [|reflexivity].
  destruct (peaks final_df grid bw msB) as [pb|e] eqn:EB; simpl; [|reflexivity].
  f_equal. rewrite fold_left_app.
  pose proof (peaks_canonical _ _ _ _ EA) as CA.
  pose proof (peaks_canonical _ _ _ _ EB) as CB.
  set (a := fold_left fmax pa (Fin 0)).
  assert (Ha : ordered a) by (apply fold_fmax_ordered; [apply zero_ordered | assumption]).
  assert (Ha0 : fmax a (Fin 0) = a).
  { unfold fmax. destruct (fgt (Fin 0) a) eqn:E; [|reflexivity].
    pose proof (fold_fmax_ge_acc zero_ordered CA) as G. fold a in G.
    rewrite fge_iff_not_fgt in G by (apply Ha || reflexivity).
    rewrite E in G. discriminate. }
  rewrite <- Ha0 at 1. apply fold_fmax_shift; [assumption | apply zero_ordered | assumption].
Qed.

(** The scan sees the table only through the ratings of its months. *)
Lemma for_months_ext (df' : dataframe) (ms : list Z) (acc : f64) :
  (forall m, In m ms -> month_ratings df' m = month_ratings final_df m) ->
  for_months df' grid bw ms acc = for_months final_df grid bw ms acc.
Proof.
  revert acc. induction ms as [|m ms IH]; intros acc H; [reflexivity|].
  cbn [for_months]. unfold loop_body. rewrite (H m (or_introl eq_refl)).
  destruct (0 <? List.length (month_ratings final_df m))%nat.
  - destruct (kde_epanechnikov (month_ratings final_df m) grid bw); simpl; [|reflexivity].
    destruct (np_max a); simpl; [|reflexivity].
    destruct (fgt a0 acc); apply IH; intros; apply H; now right.
  - simpl. apply IH. intros; apply H; now right.
Qed.

End ScanOrder.

(* ================================================================== *)
(** ** The months of a table *)

Section Months.

Lemma unique_In (l : list Z) (x : Z) : In x (unique l) <-> In x l.
Proof.
  induction l as [|y l IH]; cbn [unique]; [tauto|].
  cbn [In]. rewrite filter_In, IH, negb_true_iff, Z.eqb_neq.
  destruct (Z.eq_dec y x); intuition congruence.
Qed.

Lemma unique_NoDup (l : list Z) : NoDup (unique l).
Proof.
  induction l as [|y l IH]; cbn [unique]; constructor.
  - rewrite filter_In, negb_true_iff, Z.eqb_neq. tauto.
  - now apply NoDup_filter.
Qed.

Lemma filter_all (A : Type) (f : A -> bool) (l : list A) :
  (forall x, In x l -> f x = true) -> filter f l = l.
Proof.
  induction l as [|y l IH]; intros H; cbn [filter]; [reflexivity|].
  rewrite (H y (or_introl eq_refl)). f_equal. apply IH. intros; apply H; now right.
Qed.

Lemma unique_app (l1 l2 : list Z) :
  (forall x, In x l1 -> ~ In x l2) ->
  unique (l1 ++ l2) = unique l1 ++ unique l2.
Proof.
  induction l1 as [|y l1 IH]; intros H; cbn [app unique]; [reflexivity|].
  rewrite IH by (intros; apply H; now right).
  rewrite filter_app. f_equal. f_equal. apply filter_all.
  intros x Hx. apply negb_true_iff, Z.eqb_neq. intros ->.
  apply (H y); [now left | now apply unique_In].
Qed.

Lemma months_In (final_df : dataframe) (m : Z) :
  In m (months final_df) <-> exists r, In r final_df /\ month r = m.
Proof.
  unfold months. rewrite unique_In, in_map_iff. split; intros [r [H1 H2]]; eauto.
Qed.

Lemma month_ratings_app (df1 df2 : dataframe) (m : Z) :
  month_ratings (df1 ++ df2) m = month_ratings df1 m ++ month_ratings df2 m.
Proof. unfold month_ratings. now rewrite filter_app, map_app. Qed.

Lemma month_ratings_nil (final_df : dataframe) (m : Z) :
  ~ In m (months final_df) -> month_ratings final_df m = [].
Proof.
  intros H. unfold month_ratings.
  destruct (filter (fun r => (month r =? m)%Z) final_df) as [|r l] eqn:E; [reflexivity|].
  exfalso. apply H, months_In. exists r.
  assert (Hr : In r (filter (fun r => (month r =? m)%Z) final_df)) by (rewrite E; now left).
  apply filter_In in Hr. destruct Hr as [H1 H2]. apply Z.eqb_eq in H2. auto.
Qed.

Lemma month_ratings_In (final_df : dataframe) (m : Z) :
  month_ratings final_df m <> [] -> In m (months final_df).
Proof.
  intros H. destruct (in_dec Z.eq_dec m (months final_df)) as [Hin | Hn]; [assumption|].
  now apply month_ratings_nil in Hn.
Qed.

End Months.

(* ================================================================== *)
(** ** The scan on finite data *)

Section ScanFinite.

Lemma finite_list (l : list f64) :
  Forall (fun x => is_finite x = true) l -> exists qs, l = map Fin qs.
Proof.
  induction 1 as [|x l Hx _ [qs ->]].
  - now exists [].
  - destruct x as [q| | |]; try discriminate. now exists (q :: qs).
Qed.

Lemma month_ratings_finite (final_df : dataframe) (m : Z) :
  all_finite final_df -> exists qs, month_ratings final_df m = map Fin qs.
Proof.
  intros H. apply finite_list. unfold month_ratings.
  apply Forall_forall. intros x Hx. apply in_map_iff in Hx.
  destruct Hx as [r [<- Hr]]. apply filter_In in Hr.
  unfold all_finite in H. rewrite Forall_forall in H. apply H, Hr.
Qed.

(** The estimator on finite data with a bandwidth other than zero
    computes the density formula at every grid point. *)
Lemma kde_finite (values gs : list Q) (b : Q) :
  values <> [] -> ~ b == 0 ->
  kde_epanechnikov (map Fin values) (map Fin gs) (Fin b)
  = Returns (map (fun g => fin (density_at values b g)) gs).
Proof.
  intros Hv Hb. unfold kde_epanechnikov. f_equal. rewrite !map_map.
  apply map_ext. intros g. now apply kde_row_finite.
Qed.

Lemma density_at_nonneg (values : list Q) (b g : Q) :
  0 < b -> 0 <= density_at values b g.
Proof.
  intros Hb. unfold density_at.
  assert (Hs : 0 <= Qsum (map (fun v => kernel_weight ((g - v) / b)) values)).
  { apply Qsum_nonneg, Forall_forall. intros q Hq. in_map_inv Hq v. apply kernel_weight_nonneg. }
  assert (Hn : 0 <= inject_Z (Z.of_nat (List.length values))).
  { change 0 with (inject_Z 0). rewrite <- Zle_Qle. lia. }
  set (s := Qsum _) in *. set (n := inject_Z _) in *.
  destruct (Qeq_dec (n * b) 0) as [E | E].
  - unfold Qdiv. rewrite E. unfold Qinv. simpl. rewrite Qmult_0_r. apply Qle_refl.
  - apply Qle_shift_div_l.
    + assert (0 <= n * b) by nra. lra.
    + nra.
Qed.

Variable final_df : dataframe.
Variable gs : list Q.
Variable b : Q.
Hypothesis finite_df : all_finite final_df.
Hypothesis grid_nonempty : gs <> [].
Hypothesis bw_nonzero : ~ b == 0.

Lemma period_peak_finite (m : Z) :
  month_ratings final_df m <> [] ->
  exists p, period_peak final_df (map Fin gs) (Fin b) m = Returns p /\ ordered p.
Proof.
  intros Hm. destruct (month_ratings_finite m finite_df) as [qs Hqs].
  unfold period_peak. rewrite Hqs.
  rewrite kde_finite by (try assumption; intros ->; now rewrite Hqs in Hm).
  cbn [bind].
  destruct (@np_max_returns (map (fun g => fin (density_at qs b g)) gs)) as [p Hp].
  { destruct gs; [congruence | discriminate]. }
  exists p. split; [assumption|]. apply np_max_in in Hp.
  in_map_inv Hp g. split; [reflexivity | apply fin_canonical].
Qed.

(** The peak of a month is the greatest value of its curve. *)
Lemma period_curve_finite (m : Z) :
  month_ratings final_df m <> [] ->
  exists curve peak,
    kde_epanechnikov (month_ratings final_df m) (map Fin gs) (Fin b) = Returns curve
    /\ np_max curve = Returns peak
    /\ (forall c, In c curve -> fge peak c = true)
    /\ period_peak final_df (map Fin gs) (Fin b) m = Returns peak.
Proof.
  intros Hm. destruct (month_ratings_finite m finite_df) as [qs Hqs].
  assert (Hq : qs <> []) by (intros ->; now rewrite Hqs in Hm).
  pose proof (kde_finite gs Hq bw_nonzero) as Ek.
  destruct (@np_max_returns (map (fun g => fin (density_at qs b g)) gs)) as [peak Ep].
  { destruct gs; [congruence | discriminate]. }
  eexists. exists peak. unfold period_peak. rewrite Hqs, Ek. cbn [bind].
  split; [reflexivity|]. split; [exact Ep|]. split; [|exact Ep].
  apply np_max_is_max; [|exact Ep].
  apply Forall_forall. intros c Hc. in_map_inv Hc g.
  split; [reflexivity | apply fin_canonical].
Qed.

Lemma peaks_finite (ms : list Z) :
  exists ps, peaks final_df (map Fin gs) (Fin b) ms = Returns ps /\ Forall ordered ps.
Proof.
  induction ms as [|m ms [ps [E Hps]]]; cbn [peaks].
  - exists []. split; [reflexivity | constructor].
  - destruct (0 <? List.length (month_ratings final_df m))%nat eqn:En.
    + destruct (@period_peak_finite m) as [p [Ep Hp]].
      { intros Hn. rewrite Hn in En. discriminate. }
      rewrite Ep, E. simpl. exists (p :: ps). split; [reflexivity | now constructor].
    + now exists ps.
Qed.

Lemma for_months_is_max (ms : list Z) :
  exists r, for_months final_df (map Fin gs) (Fin b) ms (Fin 0) = Returns r
            /\ ordered r /\ max_of_zero_and_peaks final_df gs b r ms.
Proof.
  destruct (peaks_finite ms) as [ps [E Hps]].
  assert (Cps : Forall canonical ps).
  { apply Forall_forall. intros p Hp. rewrite Forall_forall in Hps. now apply Hps. }
  rewrite for_months_peaks, E. cbn [bind].
  exists (fold_left fmax ps (Fin 0)). split; [reflexivity|]. split.
  { apply fold_fmax_ordered; [apply zero_ordered | assumption]. }
  split; [|split].
  - destruct (fold_fmax_in ps (Fin 0)) as [H | H]; [now left | right].
    now apply (peaks_in _ _ _ _ E).
  - now apply fold_fmax_ge_acc; [apply zero_ordered|].
  - intros m Hin Hm. destruct (@period_peak_finite m Hm) as [p [Ep Hp]].
    exists p. split; [assumption|].
    apply fold_fmax_ge_in; [apply zero_ordered | assumption | | apply Hp].
    apply (peaks_in _ _ _ _ E). eauto.
Qed.

Lemma for_months_snoc (grid : list f64) (bw : f64) (pre : list Z) (m : Z) (a : f64) :
  for_months final_df grid bw (pre ++ [m]) a =
  acc <- for_months final_df grid bw pre a ;; loop_body final_df grid bw acc m.
Proof.
  revert a. induction pre as [|x pre IH]; intros a; cbn [app for_months].
  - simpl. destruct (loop_body final_df grid bw a m); reflexivity.
  - simpl. destruct (loop_body final_df grid bw a x); simpl; [apply IH | reflexivity].
Qed.

End ScanFinite.

(* ================================================================== *)
(** ** Properties of the density estimator *)



(** C8.  For every non-empty values sequence, every grid and every bandwidth
    [b > 0], every value of the computed density curve is [>= 0]. *)
Theorem kde_epanechnikov_nonneg (values gs : list Q) (b : Q) :
  values <> [] -> 0 < b ->
  exists curve,
    kde_epanechnikov (map Fin values) (map Fin gs) (Fin b) = Returns curve
    /\ Forall (fun c => fge c (Fin 0) = true) curve.
Proof.
  intros Hv Hb. eexists. split.
  - apply kde_finite; [assumption | lra].
  - apply Forall_forall. intros c Hc. in_map_inv Hc g. change (Fin 0) with (fin 0).
    apply fge_fin. now apply density_at_nonneg.
Qed.

Lemma kde_epanechnikov_nonneg_witness :
  sample_values <> [] /\ 0 < 40 /\
  exists curve,
    kde_epanechnikov (map Fin sample_values) (map Fin sample_grid) (Fin 40)
    = Returns curve
    /\ Forall (fun c => fge c (Fin 0) = true) curve.
Proof.
  split; [discriminate|]. split; [reflexivity|].
  apply (@kde_epanechnikov_nonneg sample_values sample_grid 40);
    [discriminate | reflexivity].
Defined.

(* ================================================================== *)
(** ** Properties of the global max scan *)



(** C3.  For two tables whose months are disjoint, the scan over their union
    returns the maximum of the two scans; and permuting the order in which
    the months are iterated never changes the result. *)
Theorem global_max_density_partition (dfA dfB : dataframe) (grid : list f64) (bw : f64) :
  (forall m, In m (months dfA) -> ~ In m (months dfB)) ->
  global_max_density (dfA ++ dfB) grid bw
  = (a <- global_max_density dfA grid bw ;;
     b <- global_max_density dfB grid bw ;;
     Returns (fmax a b))
  /\ forall ms', Permutation (months (dfA ++ dfB)) ms' ->
       for_months (dfA ++ dfB) grid bw ms' (Fin 0)
       = global_max_density (dfA ++ dfB) grid bw.
Proof.
  intros Hd. split.
  - unfold global_max_density, months. rewrite map_app, unique_app.
    + fold (months dfA) (months dfB). rewrite for_months_app.
      rewrite (@for_months_ext dfA grid bw (dfA ++ dfB) (months dfA)).
      * rewrite (@for_months_ext dfB grid bw (dfA ++ dfB) (months dfB)); [reflexivity|].
        intros m Hm. rewrite month_ratings_app.
        rewrite (@month_ratings_nil dfA m); [reflexivity|].
        intros HA. now apply (Hd m).
      * intros m Hm. rewrite month_ratings_app.
        rewrite (@month_ratings_nil dfB m); [apply app_nil_r|]. now apply Hd.
    + intros x HA HB. apply (Hd x); unfold months; now apply unique_In.
  - intros ms' HP. now apply for_months_perm.
Qed.

Lemma global_max_density_partition_witness :
  (forall m, In m (months [Row 1 "FRA" (Fin 1000)]) ->
             ~ In m (months [Row 2 "USA" (Fin 1500)]))
  /\ global_max_density ([Row 1 "FRA" (Fin 1000)] ++ [Row 2 "USA" (Fin 1500)])
       (map Fin sample_grid) (Fin 40)
     = Returns (Fin (3 # 160)).
Proof.
  assert (H : forall m, In m (months [Row 1 "FRA" (Fin 1000)]) ->
                        ~ In m (months [Row 2 "USA" (Fin 1500)])).
  { intros m [<- | []] [H | []]. discriminate. }
  split; [exact H|].
  destruct (@global_max_density_partition [Row 1 "FRA" (Fin 1000)]
              [Row 2 "USA" (Fin 1500)] (map Fin sample_grid) (Fin 40) H) as [E _].
  rewrite E. reflexivity.
Defined.

(** C9.  At every step of the scan over finite data the accumulator does not
    decrease and is the maximum of 0 and the peaks of all months with
    observations processed so far; processing a month whose peak is smaller
    than the accumulator leaves the accumulator unchanged. *)
Theorem accumulator_running_max
  (final_df : dataframe) (gs : list Q) (b : Q) (pre : list Z) (m : Z) (acc : f64) :
  all_finite final_df -> gs <> [] -> 0 < b ->
  for_months final_df (map Fin gs) (Fin b) pre (Fin 0) = Returns acc ->
  max_of_zero_and_peaks final_df gs b acc pre
  /\ exists acc',
       loop_body final_df (map Fin gs) (Fin b) acc m = Returns acc'
       /\ fge acc' acc = true
       /\ max_of_zero_and_peaks final_df gs b acc' (pre ++ [m])
       /\ forall peak,
            period_peak final_df (map Fin gs) (Fin b) m = Returns peak ->
            fgt acc peak = true -> acc' = acc.
Proof.
  intros Hf Hg Hb Hacc. assert (Hb' : ~ b == 0) by lra.
  destruct (for_months_is_max Hf Hg Hb' pre) as [r [E [Ho M]]].
  rewrite Hacc in E. injection E as <-. split; [exact M|].
  destruct (for_months_is_max Hf Hg Hb' (pre ++ [m])) as [acc' [E' [Ho' M']]].
  rewrite for_months_snoc, Hacc in E'. cbn [bind] in E'.
  exists acc'. split; [exact E'|]. split; [|split; [exact M'|]].
  - rewrite loop_body_peak in E'.
    destruct (0 <? List.length (month_ratings final_df m))%nat eqn:En.
    + destruct (@period_peak_finite final_df gs b Hf Hg Hb' m) as [p [Ep Hp]].
      { intros Hn. rewrite Hn in En. discriminate. }
      rewrite Ep in E'. cbn [bind] in E'. injection E' as <-.
      now apply fmax_ge_l.
    + injection E' as <-. apply fge_refl, Ho.
  - intros peak Ep Hgt. rewrite loop_body_peak in E'.
    destruct (0 <? List.length (month_ratings final_df m))%nat.
    + rewrite Ep in E'. cbn [bind] in E'. injection E' as <-.
      unfold fmax. now rewrite (fgt_asym _ _ Hgt).
    + now injection E' as <-.
Qed.

Lemma accumulator_running_max_witness :
  all_finite sample_df /\ sample_grid <> [] /\ 0 < 40 /\
  for_months sample_df (map Fin sample_grid) (Fin 40) [201501%Z] (Fin 0)
  = Returns (Fin (3 # 160))
  /\ exists acc',
       loop_body sample_df (map Fin sample_grid) (Fin 40) (Fin (3 # 160)) 201502
       = Returns acc'
       /\ fge acc' (Fin (3 # 160)) = true.
Proof.
  split; [repeat constructor|]. split; [discriminate|]. split; [reflexivity|].
  split; [reflexivity|].
  destruct (@accumulator_running_max sample_df sample_grid 40 [201501%Z] 201502
              (Fin (3 # 160)))
    as [_ [acc' [E [G _]]]];
    [repeat constructor | discriminate | reflexivity | reflexivity |].
  exists acc'. split; assumption.
Defined.

(* ================================================================== *)
(** ** The evaluation grid *)

Section Grid.

Lemma set_last_length (l : list f64) (v : f64) :
  List.length (set_last l v) = List.length l.
Proof.
  induction l as [|x l IH]; [reflexivity|].
  destruct l as [|y l]; [reflexivity|].
  change (set_last (x :: y :: l) v) with (x :: set_last (y :: l) v).
  simpl List.length in *. now rewrite IH.
Qed.

Lemma set_last_same (l : list f64) (v d : f64) :
  l <> [] -> last l d = v -> set_last l v = l.
Proof.
  induction l as [|x l IH]; [congruence|]. intros _ H.
  destruct l as [|y l]; [simpl in *; congruence|].
  change (set_last (x :: y :: l) v) with (x :: set_last (y :: l) v).
  f_equal. apply IH; [discriminate | exact H].
Qed.

Lemma linspace_length (start stop : f64) (num : nat) :
  List.length (linspace start stop num) = num.
Proof.
  unfold linspace.
  assert (H : forall f g : f64 -> f64,
             List.length (map f (map g (map of_nat (seq 0 num)))) = num)
    by (intros; now rewrite !length_map, length_seq).
  destruct (1 <? num)%nat; rewrite ?set_last_length;
    destruct (0 <? num - 1)%nat; try destruct (feqb _ _); apply H.
Qed.

Lemma inject_nat_nonzero (n : nat) : (0 < n)%nat -> ~ inject_Z (Z.of_nat n) == 0.
Proof.
  intros Hn H. unfold Qeq in H. simpl in H. lia.
Qed.

(** On finite bounds [linspace] lists the grid points. *)
Lemma linspace_finite (s t : Q) (num : nat) :
  (2 <= num)%nat ->
  linspace (fin s) (fin t) num = map (fun i => fin (grid_point s t num i)) (seq 0 num).
Proof.
  intros Hn. unfold linspace.
  assert (Hd : ~ inject_Z (Z.of_nat (num - 1)) == 0) by (apply inject_nat_nonzero; lia).
  replace (0 <? num - 1)%nat with true by (symmetry; apply Nat.ltb_lt; lia).
  replace (1 <? num)%nat with true by (symmetry; apply Nat.ltb_lt; lia).
  rewrite fsub_fin, !of_nat_fin, (fdiv_fin _ Hd).
  assert (E : (if feqb (fin ((t - s) / inject_Z (Z.of_nat (num - 1)))) (Fin 0)
               then map (fun yi => fmul (fdiv yi (fin (inject_Z (Z.of_nat (num - 1)))))
                                        (fin (t - s)))
                        (map of_nat (seq 0 num))
               else map (fun yi => fmul yi (fin ((t - s) / inject_Z (Z.of_nat (num - 1)))))
                        (map of_nat (seq 0 num)))
              = map (fun i => fin (inject_Z (Z.of_nat i)
                                   * ((t - s) / inject_Z (Z.of_nat (num - 1)))))
                    (seq 0 num)).
  { destruct (feqb _ _); rewrite map_map; apply map_ext; intros i;
      rewrite of_nat_fin.
    - rewrite (fdiv_fin _ Hd), fmul_fin. apply fin_eq. now field.
    - now rewrite fmul_fin. }
  rewrite E, map_map. clear E.
  rewrite (map_ext _ (fun i => fin (grid_point s t num i))).
  2:{ intros i. rewrite fadd_fin. apply fin_eq. unfold grid_point. ring. }
  apply set_last_same with NaN.
  - destruct num; [lia | discriminate].
  - destruct num as [|k]; [lia|]. rewrite seq_S, map_app. cbn [map].
    rewrite last_last. apply fin_eq. unfold grid_point. simpl Nat.add.
    replace (S k - 1)%nat with k in * by lia. now field.
Qed.

Lemma map_seq_nth (A : Type) (f : nat -> A) (n i : nat) (a : A) :
  nth_error (map f (seq 0 n)) i = Some a -> (i < n)%nat /\ a = f i.
Proof.
  intros H. assert (Hi : (i < n)%nat).
  { rewrite <- (length_seq n 0), <- (length_map f). apply nth_error_Some.
    rewrite H. discriminate. }
  split; [assumption|].
  rewrite nth_error_map, nth_error_seq in H.
  apply Nat.ltb_lt in Hi. rewrite Hi in H. simpl in H. congruence.
Qed.

Lemma grid_point_step (s t : Q) (num i : nat) :
  grid_point s t num (S i) - grid_point s t num i
  == (t - s) / inject_Z (Z.of_nat (num - 1)).
Proof.
  unfold grid_point. rewrite Nat2Z.inj_succ. unfold Z.succ.
  rewrite inject_Z_plus. ring.
Qed.

Lemma linspace_increasing (s t : Q) (num : nat) :
  (2 <= num)%nat -> s < t -> increasing (linspace (fin s) (fin t) num).
Proof.
  intros Hn Hst. rewrite linspace_finite by assumption.
  intros i a c Ha Hc. apply map_seq_nth in Ha, Hc.
  destruct Ha as [_ ->], Hc as [_ ->]. apply fgt_fin.
  pose proof (grid_point_step s t num i) as E.
  assert (Hpos : 0 < (t - s) / inject_Z (Z.of_nat (num - 1))).
  { apply Qlt_shift_div_l.
    - change 0 with (inject_Z 0). rewrite <- Zlt_Qlt. lia.
    - lra. }
  lra.
Qed.

Lemma linspace_evenly_spaced (s t : Q) (num : nat) :
  (2 <= num)%nat -> evenly_spaced (linspace (fin s) (fin t) num).
Proof.
  intros Hn. rewrite linspace_finite by assumption.
  exists (fin ((t - s) / inject_Z (Z.of_nat (num - 1)))).
  intros i a c Ha Hc. apply map_seq_nth in Ha, Hc.
  destruct Ha as [_ ->], Hc as [_ ->]. rewrite fsub_fin.
  apply fin_eq, grid_point_step.
Qed.

End Grid.

(* ================================================================== *)
(** ** The rating range *)

Section Range.

Lemma dropna_finite (qs : list Q) : dropna (map Fin qs) = map Fin qs.
Proof.
  unfold dropna. apply filter_all. intros x Hx. now in_map_inv Hx q.
Qed.

Lemma fold_fmin_finite (qs : list Q) (q0 : Q) :
  exists lo, fold_left fmin (map Fin qs) (Fin q0) = Fin lo
             /\ In lo (q0 :: qs) /\ forall q, In q (q0 :: qs) -> lo <= q.
Proof.
  revert q0. induction qs as [|q qs IH]; intros q0; cbn [map fold_left].
  - exists q0. split; [reflexivity|]. split; [now left|].
    intros q [<- | []]. apply Qle_refl.
  - assert (E : fmin (Fin q0) (Fin q) = Fin (if fgt (Fin q0) (Fin q) then q else q0))
      by (unfold fmin; now destruct (fgt (Fin q0) (Fin q))).
    rewrite E. destruct (IH (if fgt (Fin q0) (Fin q) then q else q0)) as [lo [H1 [H2 H3]]].
    exists lo. split; [exact H1|]. split.
    + destruct H2 as [H2 | H2]; [|right; now right].
      destruct (fgt (Fin q0) (Fin q)); subst; [right; now left | now left].
    + assert (Hm : lo <= (if fgt (Fin q0) (Fin q) then q else q0)) by (apply H3; now left).
      intros x [<- | [<- | Hx]].
      * destruct (fgt (Fin q0) (Fin q)) eqn:G; [|assumption].
        apply fgt_Fin in G. lra.
      * destruct (fgt (Fin q0) (Fin q)) eqn:G; [assumption|].
        apply fgt_Fin_false in G. lra.
      * apply H3. now right.
Qed.

Lemma fold_fmax_finite (qs : list Q) (q0 : Q) :
  exists hi, fold_left fmax (map Fin qs) (Fin q0) = Fin hi
             /\ In hi (q0 :: qs) /\ forall q, In q (q0 :: qs) -> q <= hi.
Proof.
  revert q0. induction qs as [|q qs IH]; intros q0; cbn [map fold_left].
  - exists q0. split; [reflexivity|]. split; [now left|].
    intros q [<- | []]. apply Qle_refl.
  - assert (E : fmax (Fin q0) (Fin q) = Fin (if fgt (Fin q) (Fin q0) then q else q0))
      by (unfold fmax; now destruct (fgt (Fin q) (Fin q0))).
    rewrite E. destruct (IH (if fgt (Fin q) (Fin q0) then q else q0)) as [hi [H1 [H2 H3]]].
    exists hi. split; [exact H1|]. split.
    + destruct H2 as [H2 | H2]; [|right; now right].
      destruct (fgt (Fin q) (Fin q0)); subst; [right; now left | now left].
    + assert (Hm : (if fgt (Fin q) (Fin q0) then q else q0) <= hi) by (apply H3; now left).
      intros x [<- | [<- | Hx]].
      * destruct (fgt (Fin q) (Fin q0)) eqn:G; [|assumption].
        apply fgt_Fin in G. lra.
      * destruct (fgt (Fin q) (Fin q0)) eqn:G; [assumption|].
        apply fgt_Fin_false in G. lra.
      * apply H3. now right.
Qed.

(** On a non-empty series of finite values, [min()] and [max()] return
    the least and the greatest value. *)
Lemma series_min_finite (qs : list Q) :
  qs <> [] ->
  exists lo, series_min (map Fin qs) = Fin lo
             /\ In lo qs /\ forall q, In q qs -> lo <= q.
Proof.
  intros H. unfold series_min. rewrite dropna_finite.
  destruct qs as [|q0 qs]; [congruence|]. cbn [map]. apply fold_fmin_finite.
Qed.

Lemma series_max_finite (qs : list Q) :
  qs <> [] ->
  exists hi, series_max (map Fin qs) = Fin hi
             /\ In hi qs /\ forall q, In q qs -> q <= hi.
Proof.
  intros H. unfold series_max. rewrite dropna_finite.
  destruct qs as [|q0 qs]; [congruence|]. cbn [map]. apply fold_fmax_finite.
Qed.

Lemma ratings_finite (final_df : dataframe) :
  all_finite final_df -> exists qs, ratings final_df = map Fin qs.
Proof.
  intros H. apply finite_list. unfold ratings. apply Forall_forall.
  intros x Hx. apply in_map_iff in Hx. destruct Hx as [r [<- Hr]].
  unfold all_finite in H. rewrite Forall_forall in H. now apply H.
Qed.

End Range.



(* ================================================================== *)
(** ** Inputs outside the domain of the estimator *)

Section Degenerate.

Lemma fold_fadd_nan (l : list f64) : fold_left fadd l NaN = NaN.
Proof. induction l as [|x l IH]; [reflexivity | exact IH]. Qed.

Lemma fadd_nan_r (a : f64) : fadd a NaN = NaN.
Proof. now destruct a. Qed.

(** A sum with a [NaN] item is [NaN]. *)
Lemma np_sum_nan (l : list f64) : In NaN l -> np_sum l = NaN.
Proof.
  unfold np_sum. generalize (Fin 0). induction l as [|x l IH]; intros a; [intros []|].
  intros [-> | H]; cbn [fold_left].
  - rewrite fadd_nan_r. apply fold_fadd_nan.
  - now apply IH.
Qed.

Lemma kernel_entry_nan (g bw : f64) : kernel_entry g NaN bw = NaN.
Proof. unfold kernel_entry. now destruct g. Qed.

Lemma fold_np_maximum_nan (l : list f64) : fold_left np_maximum l NaN = NaN.
Proof. induction l as [|x l IH]; [reflexivity | exact IH]. Qed.

(** The maximum of a non-empty array of [NaN] items is [NaN]. *)
Lemma np_max_all_nan (l : list f64) :
  l <> [] -> Forall (fun c => c = NaN) l -> np_max l = Returns NaN.
Proof.
  intros Hl H. destruct l as [|x l]; [congruence|].
  inversion H; subst. simpl. now rewrite fold_np_maximum_nan.
Qed.

(** The curve of observations that hold a [NaN] is [NaN] at every grid
    point, whatever the grid and the bandwidth. *)
Lemma kde_nan (values grid : list f64) (bw : f64) :
  In NaN values ->
  kde_epanechnikov values grid bw = Returns (map (fun _ => NaN) grid).
Proof.
  intros H. unfold kde_epanechnikov. f_equal. rewrite map_map.
  apply map_ext. intros g. unfold np_mean. rewrite np_sum_nan; [reflexivity|].
  apply in_map_iff. exists NaN. split; [apply kernel_entry_nan | assumption].
Qed.

(** The curve of no observation is [NaN] at every grid point: the mean
    of an empty row is [0 / 0]. *)
Lemma kde_empty (grid : list f64) (bw : f64) :
  kde_epanechnikov [] grid bw = Returns (map (fun _ => NaN) grid).
Proof. unfold kde_epanechnikov. f_equal. now rewrite map_map. Qed.

(** With bandwidth 0 every entry of [k] is 0 or [NaN]. *)
Lemma kernel_entry_zero_bw (g v : f64) (b : Q) :
  b == 0 -> kernel_entry g v (Fin b) = Fin 0 \/ kernel_entry g v (Fin b) = NaN.
Proof.
  intros Hb. apply Qeq_alt in Hb. unfold kernel_entry.
  destruct (fsub g v) as [d| | |]; simpl fdiv; rewrite ?Hb; auto.
  unfold signed_inf. destruct (d ?= 0); auto.
Qed.

Lemma fold_fadd_zero_or_nan (l : list f64) :
  Forall (fun k => k = Fin 0 \/ k = NaN) l ->
  fold_left fadd l (Fin 0) = Fin 0 \/ fold_left fadd l (Fin 0) = NaN.
Proof.
  induction 1 as [|k l [-> | ->] _ IH]; cbn [fold_left]; auto.
  right. apply fold_fadd_nan.
Qed.

(** With bandwidth 0 the curve is [NaN] at every grid point. *)
Lemma kde_zero_bw (values grid : list f64) (b : Q) :
  b == 0 ->
  kde_epanechnikov values grid (Fin b) = Returns (map (fun _ => NaN) grid).
Proof.
  intros Hb. unfold kde_epanechnikov. f_equal. rewrite map_map.
  apply map_ext. intros g. unfold np_mean, np_sum.
  destruct (@fold_fadd_zero_or_nan (map (fun v => kernel_entry g v (Fin b)) values))
    as [E | E].
  - apply Forall_forall. intros k Hk. in_map_inv Hk v. now apply kernel_entry_zero_bw.
  - rewrite E. unfold of_nat, fin.
    set (n := Qred (inject_Z (Z.of_nat (List.length (map (fun v => kernel_entry g v (Fin b)) values))))).
    assert (Hz : exists z, fdiv (Fin 0) (Fin n) = Fin z /\ z == 0 \/ fdiv (Fin 0) (Fin n) = NaN).
    { simpl. destruct (n ?= 0); [exists 0; now right| |];
        exists (Qred (0 / n)); left; (split; [reflexivity|]);
        rewrite Qred_correct; unfold Qdiv; apply Qmult_0_l. }
    destruct Hz as [z [[-> Hz] | ->]]; [|reflexivity].
    simpl. apply Qeq_alt in Hb, Hz. rewrite Hb. unfold signed_inf. now rewrite Hz.
  - now rewrite E.
Qed.

Lemma map_const_repeat (A B : Type) (l : list A) (c : B) :
  map (fun _ => c) l = repeat c (List.length l).
Proof. induction l as [|x l IH]; [reflexivity | simpl; now f_equal]. Qed.

Lemma density_at_opp (values : list Q) (b g : Q) :
  b < 0 -> density_at values b g <= 0.
Proof.
  intros Hb. unfold density_at.
  assert (Hs : 0 <= Qsum (map (fun v => kernel_weight ((g - v) / b)) values)).
  { apply Qsum_nonneg, Forall_forall. intros q Hq. in_map_inv Hq v. apply kernel_weight_nonneg. }
  assert (Hn : 0 <= inject_Z (Z.of_nat (List.length values))).
  { change 0 with (inject_Z 0). rewrite <- Zle_Qle. lia. }
  set (s := Qsum _) in *. set (n := inject_Z _) in *.
  destruct (Qeq_dec (n * b) 0) as [E | E].
  - unfold Qdiv. rewrite E. unfold Qinv. simpl. rewrite Qmult_0_r. apply Qle_refl.
  - assert (Hnb : 0 < - (n * b)) by (assert (n * b <= 0) by nra; lra).
    assert (H : s / (n * b) == - (s / - (n * b))).
    { field. split; [lra|]. intros Hz. apply E. rewrite Hz. ring. }
    rewrite H. assert (0 <= s / - (n * b)); [|lra].
    apply Qle_shift_div_l; [assumption | nra].
Qed.

End Degenerate.

(* ================================================================== *)
(** ** The scan on any data *)

Section ScanTotal.

Variable final_df : dataframe.
Variable grid : list f64.
Variable bw : f64.
Hypothesis grid_nonempty : grid <> [].

(** On a grid of at least one point no iteration raises. *)
Lemma period_peak_returns (m : Z) :
  exists p, period_peak final_df grid bw m = Returns p.
Proof.
  unfold period_peak, kde_epanechnikov. cbn [bind]. apply np_max_returns.
  destruct grid; [congruence | discriminate].
Qed.

Lemma peaks_returns (ms : list Z) :
  exists ps, peaks final_df grid bw ms = Returns ps.
Proof.
  induction ms as [|m ms [ps E]]; cbn [peaks]; [now exists []|].
  destruct (0 <? List.length (month_ratings final_df m))%nat; [|now exists ps].
  destruct (period_peak_returns m) as [p Ep]. rewrite Ep, E. simpl. eauto.
Qed.

(** A month whose observations hold a [NaN] leaves the accumulator as it
    is: its peak is [NaN] and [peak > global_max_density] is false. *)
Lemma loop_body_nan (acc : f64) (m : Z) :
  In NaN (month_ratings final_df m) ->
  loop_body final_df grid bw acc m = Returns acc.
Proof.
  intros H. unfold loop_body.
  destruct (0 <? List.length (month_ratings final_df m))%nat; [|reflexivity].
  rewrite (@kde_nan _ grid bw H). cbn [bind]. rewrite np_max_all_nan.
  - reflexivity.
  - destruct grid; [congruence | discriminate].
  - apply Forall_forall. intros c Hc. now in_map_inv Hc g.
Qed.

End ScanTotal.

(* ================================================================== *)
(** ** Finite results on any data *)

Section FiniteOrNaN.

Lemma kernel_entry_finite_or_nan (g v : f64) (b : Q) :
  ~ b == 0 -> finite_or_nan (kernel_entry g v (Fin b)).
Proof.
  intros Hb. assert (Hc : (b ?= 0) <> Eq) by (intros H; now apply Qeq_alt in H).
  unfold kernel_entry, finite_or_nan.
  destruct (fsub g v) as [d| | |]; simpl fdiv.
  - destruct (b ?= 0); try congruence;
      (destruct (fgt _ _); [now left | now left]).
  - destruct (b ?= 0); try congruence; now left.
  - destruct (b ?= 0); try congruence; now left.
  - now right.
Qed.

Lemma fadd_finite_or_nan (a c : f64) :
  finite_or_nan a -> finite_or_nan c -> finite_or_nan (fadd a c).
Proof.
  unfold finite_or_nan.
  destruct a, c; simpl; intros [H1 | H1] [H2 | H2]; try discriminate; auto.
Qed.

Lemma np_sum_finite_or_nan (l : list f64) :
  Forall finite_or_nan l -> finite_or_nan (np_sum l).
Proof.
  unfold np_sum. assert (H0 : finite_or_nan (Fin 0)) by now left.
  revert H0. generalize (Fin 0). intros a Ha H. revert a Ha.
  induction H as [|x l Hx _ IH]; intros a Ha; cbn [fold_left]; [assumption|].
  apply IH. now apply fadd_finite_or_nan.
Qed.

Lemma fdiv_finite_or_nan (a : f64) (q : Q) :
  finite_or_nan a -> ~ q == 0 -> finite_or_nan (fdiv a (Fin q)).
Proof.
  intros [Ha | ->] Hq; [|now right].
  destruct a as [p| | |]; try discriminate. rewrite fdiv_Fin by assumption. now left.
Qed.

Lemma np_mean_finite_or_nan (l : list f64) :
  Forall finite_or_nan l -> finite_or_nan (np_mean l).
Proof.
  intros H. unfold np_mean. destruct l as [|x l]; [now right|].
  unfold of_nat, fin. apply fdiv_finite_or_nan; [now apply np_sum_finite_or_nan|].
  rewrite Qred_correct. apply inject_nat_nonzero. simpl. lia.
Qed.

Lemma kde_finite_or_nan (values grid : list f64) (b : Q) (curve : list f64) :
  ~ b == 0 ->
  kde_epanechnikov values grid (Fin b) = Returns curve ->
  Forall finite_or_nan curve.
Proof.
  intros Hb H. unfold kde_epanechnikov in H. injection H as <-.
  rewrite map_map. apply Forall_forall. intros c Hc. in_map_inv Hc g. apply fdiv_finite_or_nan; [|assumption].
  apply np_mean_finite_or_nan, Forall_forall. intros k Hk.
  in_map_inv Hk v.
  now apply kernel_entry_finite_or_nan.
Qed.

Lemma fold_fmax_finite_or_nan (ps : list f64) (acc : f64) :
  is_finite acc = true -> Forall finite_or_nan ps ->
  is_finite (fold_left fmax ps acc) = true.
Proof.
  intros Ha H. revert acc Ha.
  induction H as [|p ps Hp _ IH]; intros acc Ha; cbn [fold_left]; [assumption|].
  apply IH. destruct Hp as [Hp | ->]; [|now rewrite fmax_nan_r].
  destruct (fmax_cases acc p) as [-> | ->]; assumption.
Qed.

(** With a bandwidth other than zero and a grid of at least one point,
    the scan returns a finite number whatever the ratings are. *)
Lemma for_months_finite_result
      (final_df : dataframe) (grid : list f64) (b : Q) (ms : list Z) :
  grid <> [] -> ~ b == 0 ->
  exists r, for_months final_df grid (Fin b) ms (Fin 0) = Returns r
            /\ is_finite r = true.
Proof.
  intros Hg Hb. destruct (@peaks_returns final_df grid (Fin b) Hg ms) as [ps E].
  rewrite for_months_peaks, E. cbn [bind]. eexists. split; [reflexivity|].
  apply fold_fmax_finite_or_nan; [reflexivity|].
  apply Forall_forall. intros p Hp. apply (peaks_in _ _ _ _ E) in Hp.
  destruct Hp as [m [_ [_ Hm]]]. unfold period_peak in Hm.
  destruct (kde_epanechnikov (month_ratings final_df m) grid (Fin b)) as [c|e] eqn:Ec;
    [|discriminate].
  cbn [bind] in Hm. apply np_max_in in Hm.
  apply kde_finite_or_nan in Ec; [|assumption].
  rewrite Forall_forall in Ec. now apply Ec.
Qed.

Lemma x_grid_nonempty (final_df : dataframe) : x_grid final_df <> [].
Proof.
  intros H. pose proof (linspace_length (grid_min final_df) (grid_max final_df) 60) as L.
  fold (x_grid final_df) in L. rewrite H in L. discriminate.
Qed.

End FiniteOrNaN.

(* ================================================================== *)
(** ** Error handling *)

(** C5, as stated, fails: on the empty table grid construction raises
    nothing; the run returns, and a grid of 60 values is built. *)
Lemma empty_table_raises_nothing :
  ~ fails (preprocess []) /\ List.length (x_grid []) = 60%nat.
Proof. split; [|reflexivity]. intros [e H]. vm_compute in H. discriminate. Qed.

(** C5, amended.  When the set of observations is empty, grid construction
    raises no error: both bounds are [NaN], the grid holds 60 [NaN] values,
    and the run returns with [maxDensity] 0. *)
Theorem empty_table_grid :
  grid_min [] = NaN /\ grid_max [] = NaN
  /\ x_grid [] = repeat NaN 60
  /\ preprocess [] = Returns (Stats (Fin 0) NaN NaN).
Proof. repeat split; reflexivity. Qed.




(** C7, as stated, fails: a [NaN] rating raises nothing, and the run
    returns what it returns without the month that holds the [NaN]. *)
Lemma nan_rating_raises_nothing :
  ~ fails (preprocess nan_df)
  /\ preprocess nan_df = preprocess [Row 201501 "FRA" (Fin 1000)].
Proof.
  split; [|vm_compute; reflexivity].
  intros [e H]. vm_compute in H. discriminate.
Qed.

(** C7, amended.  Whatever the ratings are, finite or not, the run raises no
    error and [maxDensity] is a finite number, so a [NaN] never propagates
    into it; but a month whose ratings hold a [NaN] is silently dropped: it
    leaves the accumulator unchanged. *)
Theorem nan_rating_silently_dropped (final_df : dataframe) :
  exists s,
    preprocess final_df = Returns s
    /\ is_finite (maxDensity s) = true
    /\ forall acc m,
         In NaN (month_ratings final_df m) ->
         loop_body final_df (x_grid final_df) bandwidth acc m = Returns acc.
Proof.
  destruct (@for_months_finite_result final_df (x_grid final_df) 40 (months final_df))
    as [r [E Hr]]; [apply x_grid_nonempty | discriminate |].
  exists (Stats r (grid_min final_df) (grid_max final_df)).
  split; [|split].
  - unfold preprocess, global_max_density, bandwidth. now rewrite E.
  - exact Hr.
  - intros acc m H. apply loop_body_nan; [apply x_grid_nonempty | assumption].
Qed.

(** C10.  The estimator has no emptiness check: on the empty values sequence
    the mean divides 0 by the number of observations, 0, and every value of
    the curve is [NaN]; on non-empty finite values (finite grid, bandwidth
    other than zero) every value is a finite number; and the loop body
    calls the estimator only when the month has ratings, leaving the
    accumulator as it is otherwise. *)
Theorem kde_empty_values_undefined :
  np_mean [] = NaN
  /\ (forall grid bw,
        kde_epanechnikov [] grid bw = Returns (repeat NaN (List.length grid)))
  /\ (forall (values gs : list Q) (b : Q),
        values <> [] -> ~ b == 0 ->
        exists curve,
          kde_epanechnikov (map Fin values) (map Fin gs) (Fin b) = Returns curve
          /\ Forall (fun c => is_finite c = true) curve)
  /\ (forall final_df grid bw acc m,
        month_ratings final_df m = [] ->
        loop_body final_df grid bw acc m = Returns acc)
  /\ (forall final_df grid bw acc m,
        month_ratings final_df m <> [] ->
        loop_body final_df grid bw acc m
        = (density <- kde_epanechnikov (month_ratings final_df m) grid bw ;;
           peak <- np_max density ;;
           Returns (fmax acc peak))).
Proof.
  split; [reflexivity|]. split; [|split; [|split]].
  - intros grid bw. rewrite kde_empty. now rewrite map_const_repeat.
  - intros values gs b Hv Hb. eexists. split; [now apply kde_finite|].
    apply Forall_forall. intros c Hc. now in_map_inv Hc g.
  - intros final_df grid bw acc m H. unfold loop_body. now rewrite H.
  - intros final_df grid bw acc m H. rewrite loop_body_peak. unfold period_peak.
    destruct (month_ratings final_df m); [congruence|]. reflexivity.
Qed.

Lemma kde_empty_values_undefined_witness :
  kde_epanechnikov [] (map Fin sample_grid) (Fin 40) = Returns [NaN; NaN; NaN; NaN; NaN]
  /\ exists curve,
       kde_epanechnikov (map Fin sample_values) (map Fin sample_grid) (Fin 40)
       = Returns curve
       /\ Forall (fun c => is_finite c = true) curve.
Proof.
  destruct kde_empty_values_undefined as [_ [H1 [H2 _]]]. split.
  - apply (H1 (map Fin sample_grid) (Fin 40)).
  - apply (H2 sample_values sample_grid 40); discriminate.
Defined.

(* ================================================================== *)
(** ** Further properties of the script *)

Section Further.

(** On a grid without points [np.max] raises as soon as a month has
    ratings: the scan needs a grid of at least one point.  The grid of the
    script always has 60. *)
Lemma loop_body_empty_grid (final_df : dataframe) (bw acc : f64) (m : Z) :
  month_ratings final_df m <> [] ->
  loop_body final_df [] bw acc m = Raises ValueError.
Proof.
  intros H. unfold loop_body.
  destruct (month_ratings final_df m); [congruence | reflexivity].
Qed.

Lemma x_grid_finite (final_df : dataframe) :
  final_df <> [] -> all_finite final_df ->
  exists gs, x_grid final_df = map Fin gs /\ gs <> [].
Proof.
  intros Hne Hf. destruct (ratings_finite Hf) as [qs Hqs].
  assert (Hq : qs <> []).
  { intros ->. destruct final_df; [congruence | discriminate]. }
  destruct (series_min_finite Hq) as [lo [Elo _]].
  destruct (series_max_finite Hq) as [hi [Ehi _]].
  exists (map (fun i => Qred (grid_point (lo - 100) (hi + 100) 60 i)) (seq 0 60)).
  split; [|discriminate].
  unfold x_grid, grid_min, grid_max, min_r, max_r. rewrite Hqs, Elo, Ehi.
  change (fsub (Fin lo) padding) with (fin (lo - 100)).
  change (fadd (Fin hi) padding) with (fin (hi + 100)).
  rewrite linspace_finite by lia. now rewrite map_map.
Qed.

End Further.

(** X1 (kernel support).  A grid point and a value more than one bandwidth
    apart contribute exactly 0 to the density at that grid point. *)
Theorem kernel_support (g v b : Q) :
  0 < b -> b < Qabs (g - v) -> kernel_entry (Fin g) (Fin v) (Fin b) = Fin 0.
Proof.
  intros Hb Hd. rewrite kernel_entry_finite by lra. unfold kernel_weight.
  assert (E : Qle_bool (Qabs ((g - v) / b)) 1 = false).
  { destruct (Qle_bool (Qabs ((g - v) / b)) 1) eqn:E; [|reflexivity].
    apply Qle_bool_iff in E. exfalso.
    unfold Qdiv in E. rewrite Qabs_Qmult in E.
    assert (Hi : 0 < / b) by now apply Qinv_lt_0_compat.
    rewrite (Qabs_pos (/ b)) in E by lra.
    assert (Hm : Qabs (g - v) * / b * b == Qabs (g - v)) by (field; lra).
    assert (Qabs (g - v) * / b * b <= 1 * b) by (apply Qmult_le_compat_r; lra).
    lra. }
  now rewrite E.
Qed.

Lemma kernel_support_witness :
  0 < 40 /\ 40 < Qabs (900 - 1000)
  /\ kernel_entry (Fin 900) (Fin 1000) (Fin 40) = Fin 0.
Proof.
  split; [reflexivity|]. split; [reflexivity|].
  apply (@kernel_support 900 1000 40); reflexivity.
Defined.

(** X2 (boundary).  For a single observation exactly at a grid point and a
    bandwidth [b > 0] the density at that point is [0.75 / b]; at a grid
    point exactly one bandwidth away it is 0. *)
Theorem single_observation_density (v b : Q) :
  0 < b ->
  kde_epanechnikov [Fin v] [Fin v; Fin (v + b)] (Fin b)
  = Returns [fin ((3 # 4) / b); Fin 0].
Proof.
  intros Hb.
  change (kde_epanechnikov (map Fin [v]) (map Fin [v; v + b]) (Fin b)
          = Returns [fin ((3 # 4) / b); Fin 0]).
  rewrite (@kde_finite [v] [v; v + b] b) by (discriminate || lra).
  cbn [map]. f_equal.
  assert (E1 : density_at [v] b v == (3 # 4) / b).
  { unfold density_at, Qsum. cbn [map fold_right List.length].
    assert (Eu : (v - v) / b == 0) by (field; lra).
    assert (K : kernel_weight 0 == 3 # 4) by reflexivity.
    rewrite Eu, K. change (inject_Z (Z.of_nat 1)) with 1. field. lra. }
  assert (E2 : density_at [v] b (v + b) == 0).
  { unfold density_at, Qsum. cbn [map fold_right List.length].
    assert (Eu : (v + b - v) / b == 1) by (field; lra).
    assert (K : kernel_weight 1 == 0) by reflexivity.
    rewrite Eu, K. change (inject_Z (Z.of_nat 1)) with 1. field. lra. }
  rewrite (fin_eq E1), (fin_eq E2). reflexivity.
Qed.

Lemma single_observation_density_witness :
  0 < 40 /\
  kde_epanechnikov [Fin 1000] [Fin 1000; Fin (1000 + 40)] (Fin 40)
  = Returns [Fin (3 # 160); Fin 0].
Proof.
  split; [reflexivity|]. apply (@single_observation_density 1000 40). reflexivity.
Defined.



(* ================================================================== *)
(** ** Sums and the order of the observations *)

Section SumOrder.

Lemma fadd_comm (a c : f64) : fadd a c = fadd c a.
Proof.
  destruct a as [p| | |], c as [q| | |]; try reflexivity.
  simpl. apply fin_eq. ring.
Qed.

Lemma fadd_assoc (a c d : f64) : fadd (fadd a c) d = fadd a (fadd c d).
Proof.
  destruct a as [p| | |], c as [q| | |], d as [r| | |]; try reflexivity.
  change (fin (Qred (p + q) + r) = fin (p + Qred (q + r))).
  apply fin_eq. rewrite !Qred_correct. ring.
Qed.

Lemma fadd_swap (a x y : f64) : fadd (fadd a x) y = fadd (fadd a y) x.
Proof. now rewrite !fadd_assoc, (fadd_comm x y). Qed.

(** [np.sum] does not depend on the order of the items. *)
Lemma np_sum_perm (l l' : list f64) : Permutation l l' -> np_sum l = np_sum l'.
Proof.
  intros H. unfold np_sum. generalize (Fin 0).
  induction H as [|x l l' _ IH|x y l|l l' l'' _ IH1 _ IH2]; intros a; cbn [fold_left].
  - reflexivity.
  - apply IH.
  - now rewrite fadd_swap.
  - now rewrite IH1.
Qed.

Lemma kde_perm (values values' grid : list f64) (bw : f64) :
  Permutation values values' ->
  kde_epanechnikov values' grid bw = kde_epanechnikov values grid bw.
Proof.
  intros H. unfold kde_epanechnikov. f_equal. rewrite !map_map.
  apply map_ext. intros g. unfold np_mean.
  rewrite !length_map, (Permutation_length H). f_equal. f_equal. symmetry.
  apply np_sum_perm. now apply Permutation_map.
Qed.

End SumOrder.



(* ================================================================== *)
(** ** The range of the density *)

Section Range01.

Lemma kernel_weight_le (u : Q) : kernel_weight u <= 3 # 4.
Proof.
  unfold kernel_weight. destruct (Qle_bool (Qabs u) 1); [|discriminate].
  assert (0 <= u * u) by nra. lra.
Qed.

Lemma nan_or_within_fin (hi q : Q) : 0 <= q <= hi -> nan_or_within hi (fin q).
Proof. intros H. right. exists (Qred q). split; [reflexivity|]. now rewrite Qred_correct. Qed.

Lemma nan_or_within_weaken (hi hi' : Q) (c : f64) :
  hi <= hi' -> nan_or_within hi c -> nan_or_within hi' c.
Proof.
  intros H [-> | [q [-> Hq]]]; [now left|]. right. exists q. split; [reflexivity | lra].
Qed.

(** Every entry of the matrix [k] is [NaN] or lies between 0 and 0.75. *)
Lemma kernel_entry_range (g v : f64) (b : Q) :
  ~ b == 0 -> nan_or_within (3 # 4) (kernel_entry g v (Fin b)).
Proof.
  intros Hb. destruct g as [p| | |], v as [q| | |];
    try (left; reflexivity);
    try (right; exists 0; split; [|split; discriminate];
         unfold kernel_entry; simpl; now destruct (b ?= 0)).
  rewrite kernel_entry_finite by assumption. apply nan_or_within_fin.
  split; [apply kernel_weight_nonneg | apply kernel_weight_le].
Qed.

Lemma fold_fadd_range (h : Q) (l : list f64) :
  0 <= h -> Forall (nan_or_within h) l ->
  forall a A, 0 <= a <= A ->
    nan_or_within (A + inject_Z (Z.of_nat (List.length l)) * h)
                  (fold_left fadd l (Fin a)).
Proof.
  intros Hh Hl. induction Hl as [|x l Hx _ IH]; intros a A Ha; cbn [fold_left].
  - right. exists a. split; [reflexivity|].
    change (inject_Z (Z.of_nat (List.length (@nil f64)))) with 0. lra.
  - assert (E : inject_Z (Z.of_nat (List.length (x :: l)))
                == inject_Z (Z.of_nat (List.length l)) + 1).
    { cbn [List.length]. rewrite Nat2Z.inj_succ. unfold Z.succ.
      now rewrite inject_Z_plus. }
    destruct Hx as [-> | [q [-> Hq]]].
    + left. apply fold_fadd_nan.
    + change (fadd (Fin a) (Fin q)) with (Fin (Qred (a + q))).
      destruct (IH (Qred (a + q)) (A + h)) as [-> | [r [-> Hr]]].
      * rewrite Qred_correct. lra.
      * now left.
      * right. exists r. split; [reflexivity|]. rewrite E. lra.
Qed.

Lemma np_mean_range (h : Q) (l : list f64) :
  0 <= h -> Forall (nan_or_within h) l -> nan_or_within h (np_mean l).
Proof.
  intros Hh Hl. unfold np_mean, np_sum. destruct l as [|x l]; [now left|].
  set (n := inject_Z (Z.of_nat (List.length (x :: l)))).
  assert (Hn : 0 < n).
  { unfold n. change 0 with (inject_Z 0). rewrite <- Zlt_Qlt. simpl. lia. }
  destruct (@fold_fadd_range h (x :: l) Hh Hl 0 0) as [-> | [q [-> Hq]]];
    [lra | now left |].
  fold n in Hq. unfold of_nat, fin. fold n.
  rewrite fdiv_Fin by (rewrite Qred_correct; lra).
  apply nan_or_within_fin. rewrite Qred_correct. split.
  - apply Qle_shift_div_l; lra.
  - apply Qle_shift_div_r; lra.
Qed.

Lemma fdiv_range (h b : Q) (c : f64) :
  0 < b -> nan_or_within h c -> nan_or_within (h / b) (fdiv c (Fin b)).
Proof.
  intros Hb [-> | [q [-> Hq]]]; [now left|].
  rewrite fdiv_Fin by lra. apply nan_or_within_fin. split.
  - apply Qle_shift_div_l; lra.
  - unfold Qdiv. apply Qmult_le_compat_r; [lra|].
    apply Qlt_le_weak. now apply Qinv_lt_0_compat.
Qed.

Lemma fold_fmax_range (h : Q) (ps : list f64) :
  Forall (nan_or_within h) ps ->
  forall a, 0 <= a <= h ->
    exists q, fold_left fmax ps (Fin a) = Fin q /\ 0 <= q <= h.
Proof.
  induction 1 as [|p ps Hp _ IH]; intros a Ha; cbn [fold_left]; [eauto|].
  destruct Hp as [-> | [q [-> Hq]]]; [rewrite fmax_nan_r; now apply IH|].
  destruct (fmax_cases (Fin a) (Fin q)) as [-> | ->]; now apply IH.
Qed.

Lemma kde_range (values grid : list f64) (b : Q) (curve : list f64) :
  0 < b -> kde_epanechnikov values grid (Fin b) = Returns curve ->
  Forall (nan_or_within ((3 # 4) / b)) curve.
Proof.
  intros Hb E. unfold kde_epanechnikov in E. injection E as <-. rewrite map_map.
  apply Forall_forall. intros c Hc. in_map_inv Hc g.
  apply fdiv_range; [assumption|]. apply np_mean_range; [discriminate|].
  apply Forall_forall. intros k Hk. in_map_inv Hk v.
  apply kernel_entry_range. lra.
Qed.

End Range01.

(** X6 (range of the curve).  For every bandwidth [b > 0], whatever the
    observation values and the grid are, every value of the density curve is
    [NaN] or a number between 0 and [0.75 / b]. *)
Theorem kde_curve_range (values grid : list f64) (b : Q) :
  0 < b ->
  exists curve,
    kde_epanechnikov values grid (Fin b) = Returns curve
    /\ Forall (nan_or_within ((3 # 4) / b)) curve.
Proof.
  intros Hb. eexists. split; [reflexivity|]. now apply kde_range with values grid.
Qed.

Lemma kde_curve_range_witness :
  0 < 40 /\
  exists curve,
    kde_epanechnikov [Fin 1000; PInf] (map Fin sample_grid) (Fin 40) = Returns curve
    /\ Forall (nan_or_within ((3 # 4) / 40)) curve.
Proof.
  split; [reflexivity|].
  apply (@kde_curve_range [Fin 1000; PInf] (map Fin sample_grid) 40). reflexivity.
Defined.

Lemma preprocess_range (final_df : dataframe) :
  exists s q,
    preprocess final_df = Returns s
    /\ maxDensity s = Fin q /\ 0 <= q <= 3 # 160.
Proof.
  destruct (@peaks_returns final_df (x_grid final_df) bandwidth
              (@x_grid_nonempty final_df) (months final_df)) as [ps E].
  assert (Hps : Forall (nan_or_within (3 # 160)) ps).
  { apply Forall_forall. intros p Hp. apply (peaks_in _ _ _ _ E) in Hp.
    destruct Hp as [m [_ [_ Hm]]]. unfold period_peak in Hm.
    destruct (kde_epanechnikov (month_ratings final_df m) (x_grid final_df) bandwidth)
      as [curve|e] eqn:Ec; [|discriminate].
    cbn [bind] in Hm. apply np_max_in in Hm.
    assert (Hc : Forall (nan_or_within ((3 # 4) / 40)) curve)
      by (apply kde_range with (month_ratings final_df m) (x_grid final_df);
          [reflexivity | exact Ec]).
    rewrite Forall_forall in Hc.
    apply nan_or_within_weaken with ((3 # 4) / 40); [discriminate | now apply Hc]. }
  destruct (@fold_fmax_range (3 # 160) ps Hps 0) as [q [Eq Hq]]; [split; discriminate|].
  exists (Stats (Fin q) (grid_min final_df) (grid_max final_df)), q.
  split; [|split; [reflexivity | exact Hq]].
  unfold preprocess, global_max_density. rewrite for_months_peaks, E.
  cbn [bind]. now rewrite Eq.
Qed.


(* ================================================================== *)
(** ** Months without observations, and the order of the rows *)

Section Rows.

Lemma Permutation_filter (A : Type) (f : A -> bool) (l l' : list A) :
  Permutation l l' -> Permutation (filter f l) (filter f l').
Proof.
  induction 1 as [|x l l' _ IH|x y l|l l' l'' _ IH1 _ IH2]; cbn [filter].
  - constructor.
  - destruct (f x); [now constructor | assumption].
  - destruct (f x), (f y); try apply Permutation_refl. apply perm_swap.
  - now apply Permutation_trans with (filter f l').
Qed.

(** The months of the list that have no observation can be left out. *)
Lemma for_months_filter (final_df : dataframe) (grid : list f64) (bw : f64)
      (ms : list Z) (acc : f64) :
  for_months final_df grid bw ms acc
  = for_months final_df grid bw
      (filter (fun m => (0 <? List.length (month_ratings final_df m))%nat) ms) acc.
Proof.
  revert acc. induction ms as [|m ms IH]; intros acc; [reflexivity|].
  cbn [for_months filter]. unfold loop_body at 1.
  destruct (0 <? List.length (month_ratings final_df m))%nat eqn:E.
  - cbn [for_months]. unfold loop_body. rewrite E.
    destruct (kde_epanechnikov (month_ratings final_df m) grid bw) as [c|e];
      cbn [bind]; [|reflexivity].
    destruct (np_max c) as [p|e]; cbn [bind]; [|reflexivity].
    destruct (fgt p acc); cbn [bind]; apply IH.
  - cbn [bind]. apply IH.
Qed.

Lemma months_have_ratings (final_df : dataframe) (m : Z) :
  In m (months final_df) <-> month_ratings final_df m <> [].
Proof.
  split; [|apply month_ratings_In].
  intros H. apply months_In in H. destruct H as [r [Hr Hm]].
  unfold month_ratings. intros E. apply map_eq_nil in E.
  assert (Hin : In r (filter (fun r => (month r =? m)%Z) final_df)).
  { apply filter_In. split; [assumption | now apply Z.eqb_eq]. }
  rewrite E in Hin. destruct Hin.
Qed.

Lemma nonempty_ltb (A : Type) (l : list A) :
  (0 <? List.length l)%nat = true <-> l <> [].
Proof.
  destruct l; simpl; split; intros H; try congruence; try discriminate.
  reflexivity.
Qed.

End Rows.

(** X3 (months to scan).  The scan over any duplicate-free list of months that
    holds every month of the table returns what the scan over
    [final_df['month'].unique()] returns: the order of the months and months
    without observations change nothing, and such months raise nothing. *)
Theorem scan_any_cover (final_df : dataframe) (grid : list f64) (bw : f64) (ms : list Z) :
  NoDup ms -> (forall m, In m (months final_df) -> In m ms) ->
  for_months final_df grid bw ms (Fin 0) = global_max_density final_df grid bw.
Proof.
  intros Hnd Hcov. rewrite for_months_filter. unfold global_max_density.
  apply for_months_perm. apply NoDup_Permutation.
  - apply unique_NoDup.
  - now apply NoDup_filter.
  - intros m. rewrite filter_In, nonempty_ltb, <- months_have_ratings.
    fold (months final_df). split; [|tauto]. intros H. split; [now apply Hcov | assumption].
Qed.

Lemma scan_any_cover_witness :
  NoDup [201503; 201502; 201501]%Z
  /\ (forall m, In m (months sample_df) -> In m [201503; 201502; 201501]%Z)
  /\ for_months sample_df (map Fin sample_grid) (Fin 40) [201503; 201502; 201501]%Z (Fin 0)
     = Returns (Fin (3 # 160)).
Proof.
  assert (H1 : NoDup [201503; 201502; 201501]%Z).
  { repeat constructor; simpl; intuition discriminate. }
  assert (H2 : forall m, In m (months sample_df) -> In m [201503; 201502; 201501]%Z).
  { simpl. intuition. }
  split; [exact H1|]. split; [exact H2|].
  rewrite (@scan_any_cover sample_df (map Fin sample_grid) (Fin 40) _ H1 H2).
  reflexivity.
Defined.

(* ================================================================== *)
(** ** Where the density vanishes *)

Section Vanish.

Lemma kernel_weight_zero_iff (u : Q) : kernel_weight u == 0 <-> 1 <= Qabs u.
Proof.
  unfold kernel_weight. destruct (Qle_bool (Qabs u) 1) eqn:E.
  - apply Qle_bool_iff in E. split; intros H.
    + destruct (Qlt_le_dec u 0) as [Hu | Hu].
      * rewrite Qabs_neg in * by lra. nra.
      * rewrite Qabs_pos in * by lra. nra.
    + destruct (Qlt_le_dec u 0) as [Hu | Hu].
      * rewrite Qabs_neg in * by lra. nra.
      * rewrite Qabs_pos in * by lra. nra.
  - split; [|reflexivity]. intros _.
    apply Qlt_le_weak, Qnot_le_lt. intros H. apply Qle_bool_iff in H. congruence.
Qed.

Lemma Qsum_zero_iff (l : list Q) :
  Forall (fun q => 0 <= q) l -> (Qsum l == 0 <-> Forall (fun q => q == 0) l).
Proof.
  induction 1 as [|q l Hq Hl IH].
  - split; [constructor | reflexivity].
  - change (Qsum (q :: l)) with (q + Qsum l).
    pose proof (Qsum_nonneg Hl) as Hs. split.
    + intros H. constructor; [lra|]. apply IH. lra.
    + intros H. inversion H as [|? ? H1 H2]; subst. apply IH in H2. lra.
Qed.

Lemma Qabs_div_ge (d b : Q) : 0 < b -> (1 <= Qabs (d / b) <-> b <= Qabs d).
Proof.
  intros Hb. unfold Qdiv. rewrite Qabs_Qmult.
  assert (Hi : 0 < / b) by now apply Qinv_lt_0_compat.
  rewrite (Qabs_pos (/ b)) by lra.
  assert (E : Qabs d == Qabs d * / b * b) by (field; lra).
  split; intros H.
  - rewrite E. assert (1 * b <= Qabs d * / b * b) by (apply Qmult_le_compat_r; lra). lra.
  - assert (b * / b <= Qabs d * / b) by (apply Qmult_le_compat_r; lra).
    assert (b * / b == 1) by (field; lra). lra.
Qed.

Lemma fin_zero_iff (q : Q) : fin q = Fin 0 <-> q == 0.
Proof.
  split; intros H.
  - unfold fin in H. injection H as H. rewrite <- (Qred_correct q), H. reflexivity.
  - now apply (fin_eq (q := 0)).
Qed.

Lemma density_at_zero_iff (values : list Q) (b g : Q) :
  values <> [] -> 0 < b ->
  (density_at values b g == 0 <-> forall v, In v values -> b <= Qabs (g - v)).
Proof.
  intros Hv Hb. unfold density_at.
  set (ks := map (fun v => kernel_weight ((g - v) / b)) values).
  pose proof (length_nonzero Hv) as Hn.
  assert (Hn' : 0 <= inject_Z (Z.of_nat (List.length values))).
  { change 0 with (inject_Z 0). rewrite <- Zle_Qle. lia. }
  set (n := inject_Z (Z.of_nat (List.length values))) in *.
  assert (Hnb : 0 < n * b) by (assert (0 < n) by lra; nra).
  assert (Hk : Forall (fun q => 0 <= q) ks).
  { apply Forall_forall. intros k Hk. unfold ks in Hk. in_map_inv Hk v.
    apply kernel_weight_nonneg. }
  assert (E : Qsum ks / (n * b) == 0 <-> Qsum ks == 0).
  { split; intros H.
    - assert (E1 : Qsum ks == Qsum ks / (n * b) * (n * b)) by (field; lra).
      rewrite E1, H. ring.
    - rewrite H. field. lra. }
  rewrite E, (Qsum_zero_iff Hk), Forall_forall. unfold ks. split.
  - intros H v Hin. apply Qabs_div_ge; [assumption|].
    apply kernel_weight_zero_iff. apply H.
    apply (in_map (fun v => kernel_weight ((g - v) / b)) _ _ Hin).
  - intros H k Hin. apply in_map_iff in Hin. destruct Hin as [v [<- Hin]].
    apply kernel_weight_zero_iff. apply Qabs_div_ge; [assumption|]. now apply H.
Qed.

End Vanish.



(* ================================================================== *)
(** ** The order of the rows of the table *)

Section RowOrder.

Lemma canon_fgt_l (a c : f64) : fgt (canon a) c = fgt a c.
Proof.
  destruct a as [p| | |], c as [q| | |]; try reflexivity.
  simpl. now rewrite Qred_correct.
Qed.

Lemma canon_fgt_r (a c : f64) : fgt a (canon c) = fgt a c.
Proof.
  destruct a as [p| | |], c as [q| | |]; try reflexivity.
  simpl. now rewrite Qred_correct.
Qed.

Lemma canon_ordered (a : f64) : isnan a = false -> ordered (canon a).
Proof.
  intros H. destruct a; try discriminate; split; try reflexivity; try exact I.
  apply fin_canonical.
Qed.

Lemma canon_fmin (a c : f64) : canon (fmin a c) = fmin (canon a) (canon c).
Proof. unfold fmin. rewrite canon_fgt_l, canon_fgt_r. now destruct (fgt a c). Qed.

Lemma canon_fmax (a c : f64) : canon (fmax a c) = fmax (canon a) (canon c).
Proof. unfold fmax. rewrite canon_fgt_l, canon_fgt_r. now destruct (fgt c a). Qed.

Lemma canon_fold (f : f64 -> f64 -> f64) (xs : list f64) (x : f64) :
  (forall a c, canon (f a c) = f (canon a) (canon c)) ->
  canon (fold_left f xs x) = fold_left f (map canon xs) (canon x).
Proof.
  intros Hf. revert x. induction xs as [|y xs IH]; intros x; cbn [fold_left map].
  - reflexivity.
  - now rewrite IH, Hf.
Qed.

Lemma fsub_canon (a p : f64) : fsub (canon a) p = fsub a p.
Proof.
  destruct a as [q| | |], p as [r| | |]; try reflexivity.
  simpl. apply fin_eq. now rewrite Qred_correct.
Qed.

Lemma fadd_canon (a p : f64) : fadd (canon a) p = fadd a p.
Proof.
  destruct a as [q| | |], p as [r| | |]; try reflexivity.
  simpl. apply fin_eq. now rewrite Qred_correct.
Qed.

Lemma fge_antisym (a c : f64) :
  ordered a -> ordered c -> fge a c = true -> fge c a = true -> a = c.
Proof.
  intros Ha Hc H1 H2.
  rewrite fge_iff_not_fgt in H1, H2 by (apply Ha || apply Hc).
  apply negb_true_iff in H1, H2.
  destruct (fgt_total Ha Hc) as [H | [H | H]]; congruence.
Qed.

Lemma fgt_fge (a c : f64) : fgt a c = true -> fge a c = true.
Proof.
  intros H. destruct a as [p| | |], c as [q| | |]; simpl in *; try congruence.
  now destruct (p ?= q).
Qed.

Lemma fmin_le_l (a c : f64) : ordered a -> ordered c -> fge a (fmin a c) = true.
Proof.
  intros Ha Hc. unfold fmin. destruct (fgt a c) eqn:E.
  - now apply fgt_fge.
  - apply fge_refl, Ha.
Qed.

Lemma fmin_le_r (a c : f64) : ordered a -> ordered c -> fge c (fmin a c) = true.
Proof.
  intros Ha Hc. unfold fmin. destruct (fgt a c) eqn:E.
  - apply fge_refl, Hc.
  - rewrite fge_iff_not_fgt by (apply Ha || apply Hc). now rewrite E.
Qed.

Lemma fmin_ordered (a c : f64) : ordered a -> ordered c -> ordered (fmin a c).
Proof. intros Ha Hc. unfold fmin. now destruct (fgt a c). Qed.

(** The reduction by [fmin] returns a least item of the series. *)
Lemma fold_fmin_least (xs : list f64) (x : f64) :
  Forall ordered (x :: xs) ->
  ordered (fold_left fmin xs x)
  /\ In (fold_left fmin xs x) (x :: xs)
  /\ forall y, In y (x :: xs) -> fge y (fold_left fmin xs x) = true.
Proof.
  revert x. induction xs as [|a xs IH]; intros x H; cbn [fold_left].
  - inversion H; subst. split; [assumption|]. split; [now left|].
    intros y [<- | []]. now apply fge_refl, H2.
  - inversion H as [|? ? Hx H']; subst. inversion H' as [|? ? Ha Hxs]; subst.
    destruct (IH (fmin x a)) as [Ho [Hin Hle]].
    { constructor; [now apply fmin_ordered | assumption]. }
    split; [assumption|]. split.
    + destruct Hin as [E | Hin]; [|right; now right].
      rewrite <- E. unfold fmin. destruct (fgt x a); [right; now left | now left].
    + assert (Hm : fge (fmin x a) (fold_left fmin xs (fmin x a)) = true)
        by (apply Hle; now left).
      intros y [<- | [<- | Hy]].
      * apply fge_trans with (fmin x a); [now apply fmin_le_l | assumption].
      * apply fge_trans with (fmin x a); [now apply fmin_le_r | assumption].
      * apply Hle. now right.
Qed.

(** The reduction by [fmax] returns a greatest item of the series. *)
Lemma fold_fmax_greatest (xs : list f64) (x : f64) :
  Forall ordered (x :: xs) ->
  ordered (fold_left fmax xs x)
  /\ In (fold_left fmax xs x) (x :: xs)
  /\ forall y, In y (x :: xs) -> fge (fold_left fmax xs x) y = true.
Proof.
  intros H. inversion H as [|? ? Hx Hxs]; subst.
  assert (Cxs : Forall canonical xs).
  { apply Forall_forall. intros y Hy. rewrite Forall_forall in Hxs. now apply Hxs. }
  split; [now apply fold_fmax_ordered|]. split.
  - destruct (fold_fmax_in xs x) as [-> | Hin]; [now left | now right].
  - intros y [<- | Hy].
    + now apply fold_fmax_ge_acc.
    + apply fold_fmax_ge_in; try assumption. rewrite Forall_forall in Hxs. now apply Hxs.
Qed.

Lemma dropna_ordered (s : list f64) : Forall ordered (map canon (dropna s)).
Proof.
  apply Forall_forall. intros y Hy. apply in_map_iff in Hy.
  destruct Hy as [x [<- Hx]]. apply filter_In in Hx. destruct Hx as [_ Hx].
  apply canon_ordered. now apply negb_true_iff in Hx.
Qed.

(** [Series.min()] and [Series.max()] do not depend on the order of the
    series, up to the representation of the number. *)
Lemma series_min_perm (s s' : list f64) :
  Permutation s s' -> canon (series_min s) = canon (series_min s').
Proof.
  intros H. unfold series_min.
  pose proof (Permutation_map canon (Permutation_filter (fun x => negb (isnan x)) H)) as P.
  fold (dropna s) (dropna s') in P.
  pose proof (dropna_ordered s) as O. pose proof (dropna_ordered s') as O'.
  destruct (dropna s) as [|x xs], (dropna s') as [|y ys]; cbn [map] in *.
  - reflexivity.
  - apply Permutation_nil in P. discriminate.
  - apply Permutation_sym, Permutation_nil in P. discriminate.
  - rewrite !(canon_fold fmin _ _ canon_fmin).
    destruct (fold_fmin_least O) as [Ho [Hin Hle]].
    destruct (fold_fmin_least O') as [Ho' [Hin' Hle']].
    apply fge_antisym; try assumption.
    + apply Hle'. now apply Permutation_in with (canon x :: map canon xs).
    + apply Hle. apply Permutation_in with (canon y :: map canon ys);
        [now apply Permutation_sym | assumption].
Qed.

Lemma series_max_perm (s s' : list f64) :
  Permutation s s' -> canon (series_max s) = canon (series_max s').
Proof.
  intros H. unfold series_max.
  pose proof (Permutation_map canon (Permutation_filter (fun x => negb (isnan x)) H)) as P.
  fold (dropna s) (dropna s') in P.
  pose proof (dropna_ordered s) as O. pose proof (dropna_ordered s') as O'.
  destruct (dropna s) as [|x xs], (dropna s') as [|y ys]; cbn [map] in *.
  - reflexivity.
  - apply Permutation_nil in P. discriminate.
  - apply Permutation_sym, Permutation_nil in P. discriminate.
  - rewrite !(canon_fold fmax _ _ canon_fmax).
    destruct (fold_fmax_greatest O) as [Ho [Hin Hle]].
    destruct (fold_fmax_greatest O') as [Ho' [Hin' Hle']].
    apply fge_antisym; try assumption.
    + apply Hle. apply Permutation_in with (canon y :: map canon ys);
        [now apply Permutation_sym | assumption].
    + apply Hle'. now apply Permutation_in with (canon x :: map canon xs).
Qed.

Lemma grid_bounds_perm (df df' : dataframe) :
  Permutation df df' -> grid_min df' = grid_min df /\ grid_max df' = grid_max df.
Proof.
  intros H. assert (P : Permutation (ratings df) (ratings df'))
    by now apply Permutation_map.
  unfold grid_min, grid_max, min_r, max_r. split.
  - rewrite <- (fsub_canon (series_min (ratings df'))),
            <- (fsub_canon (series_min (ratings df))).
    now rewrite (series_min_perm P).
  - rewrite <- (fadd_canon (series_max (ratings df'))),
            <- (fadd_canon (series_max (ratings df))).
    now rewrite (series_max_perm P).
Qed.

Lemma months_perm (df df' : dataframe) :
  Permutation df df' -> Permutation (months df) (months df').
Proof.
  intros H. apply NoDup_Permutation; try apply unique_NoDup.
  intros m. unfold months. rewrite !unique_In.
  assert (P : Permutation (map month df) (map month df')) by now apply Permutation_map.
  split; intros Hm; [now apply Permutation_in with (map month df)|].
  apply Permutation_in with (map month df'); [now apply Permutation_sym | assumption].
Qed.

Lemma month_ratings_perm (df df' : dataframe) (m : Z) :
  Permutation df df' -> Permutation (month_ratings df m) (month_ratings df' m).
Proof.
  intros H. unfold month_ratings. now apply Permutation_map, Permutation_filter.
Qed.

Lemma for_months_perm_rows (df df' : dataframe) (grid : list f64) (bw : f64)
      (ms : list Z) (acc : f64) :
  (forall m, Permutation (month_ratings df m) (month_ratings df' m)) ->
  for_months df' grid bw ms acc = for_months df grid bw ms acc.
Proof.
  intros H. revert acc. induction ms as [|m ms IH]; intros acc; [reflexivity|].
  cbn [for_months]. unfold loop_body.
  rewrite <- (Permutation_length (H m)), (kde_perm grid bw (H m)).
  destruct (0 <? List.length (month_ratings df m))%nat; cbn [bind]; [|apply IH].
  destruct (kde_epanechnikov (month_ratings df m) grid bw) as [c|e];
    cbn [bind]; [|reflexivity].
  destruct (np_max c) as [p|e]; cbn [bind]; [|reflexivity].
  destruct (fgt p acc); cbn [bind]; apply IH.
Qed.

End RowOrder.

Lemma preprocess_perm (df df' : dataframe) :
  Permutation df df' -> preprocess df' = preprocess df.
Proof.
  intros H. destruct (grid_bounds_perm H) as [Emin Emax].
  unfold preprocess, global_max_density, x_grid. rewrite Emin, Emax.
  set (G := linspace (grid_min df) (grid_max df) 60).
  rewrite (@for_months_perm_rows df df' G bandwidth (months df') (Fin 0)
             (fun m => month_ratings_perm m H)).
  now rewrite (@for_months_perm df G bandwidth (months df) (months df') (months_perm H)).
Qed.



(* ================================================================== *)
(** ** Ordered dictionaries *)

Section DictFacts.

Variable V : Type.
Implicit Types (d : dict V) (k : string) (v : V).

Lemma dict_get_set_same k v d : dict_get k (dict_set k v d) = Some v.
Proof.
  induction d as [|[k' v'] d IH]; cbn [dict_set dict_get].
  - now rewrite String.eqb_refl.
  - destruct (String.eqb k k') eqn:E; cbn [dict_get]; rewrite E; [reflexivity | exact IH].
Qed.

Lemma dict_get_set_other k k' v d :
  k <> k' -> dict_get k' (dict_set k v d) = dict_get k' d.
Proof.
  intros Hk. induction d as [|[k0 v0] d IH]; cbn [dict_set dict_get].
  - apply String.eqb_neq in Hk. rewrite String.eqb_sym in Hk. now rewrite Hk.
  - destruct (String.eqb k k0) eqn:E; cbn [dict_get].
    + apply String.eqb_eq in E. subst k0.
      apply String.eqb_neq in Hk. rewrite String.eqb_sym in Hk. now rewrite Hk.
    + now rewrite IH.
Qed.

Lemma dict_get_None k d : dict_get k d = None <-> ~ In k (map fst d).
Proof.
  induction d as [|[k' v'] d IH]; cbn [dict_get map fst In]; [tauto|].
  destruct (String.eqb_spec k k') as [-> | Hn].
  - split; [discriminate | tauto].
  - rewrite IH. split; [intros H [E | H']; [congruence | tauto] | tauto].
Qed.

Lemma dict_get_In k v d : dict_get k d = Some v -> In (k, v) d.
Proof.
  induction d as [|[k' v'] d IH]; cbn [dict_get]; [discriminate|].
  destruct (String.eqb_spec k k') as [-> | Hn].
  - intros H. injection H as ->. now left.
  - intros H. right. now apply IH.
Qed.

Lemma dict_In_get k v d : NoDup (map fst d) -> In (k, v) d -> dict_get k d = Some v.
Proof.
  induction d as [|[k' v'] d IH]; cbn [map fst]; intros Hnd Hin; [destruct Hin|].
  inversion Hnd as [|? ? Hk Hnd']; subst. cbn [dict_get].
  destruct Hin as [E | Hin].
  - injection E as -> ->. now rewrite String.eqb_refl.
  - destruct (String.eqb_spec k k') as [-> | Hn]; [|now apply IH].
    exfalso. apply Hk. apply in_map_iff. now exists (k', v).
Qed.

(** Setting a key keeps the other keys and their order. *)
Lemma dict_set_keys k v d :
  map fst (dict_set k v d)
  = if dict_mem k d then map fst d else map fst d ++ [k].
Proof.
  unfold dict_mem. induction d as [|[k' v'] d IH]; cbn [dict_set dict_get map fst app].
  - reflexivity.
  - destruct (String.eqb k k') eqn:E; cbn [map fst]; [reflexivity|].
    rewrite IH. now destruct (dict_get k d).
Qed.

Lemma dict_mem_In k d : dict_mem k d = true <-> In k (map fst d).
Proof.
  unfold dict_mem. destruct (dict_get k d) eqn:E.
  - split; [|reflexivity]. intros _. apply dict_get_In in E.
    apply in_map_iff. now exists (k, v).
  - apply dict_get_None in E. split; [discriminate | tauto].
Qed.

Lemma dict_set_NoDup k v d : NoDup (map fst d) -> NoDup (map fst (dict_set k v d)).
Proof.
  intros H. rewrite dict_set_keys. destruct (dict_mem k d) eqn:E; [assumption|].
  apply NoDup_app; [assumption | repeat constructor; intros [] |].
  intros x Hx [<- | []]. apply dict_mem_In in Hx. congruence.
Qed.

(** The values of a dictionary after one is set, up to their order. *)
Lemma dict_set_values (A : Type) (g : V -> list A) k v d (extra : list A) :
  Permutation (g v)
              (match dict_get k d with Some v0 => g v0 | None => [] end ++ extra) ->
  Permutation (flat_map (fun kv => g (snd kv)) (dict_set k v d))
              (flat_map (fun kv => g (snd kv)) d ++ extra).
Proof.
  induction d as [|[k' v'] d IH]; cbn [dict_set dict_get flat_map snd app].
  - intros H. now rewrite app_nil_r.
  - destruct (String.eqb k k') eqn:E; cbn [flat_map snd]; intros H.
    + rewrite H, <- !app_assoc. apply Permutation_app_head, Permutation_app_comm.
    + rewrite <- app_assoc. apply Permutation_app_head. now apply IH.
Qed.

End DictFacts.

(* ================================================================== *)
(** ** The hierarchy *)

Section HierarchyFacts.

Lemma dict_set_set (V : Type) (k : string) (v v' : V) (d : dict V) :
  dict_set k v (dict_set k v' d) = dict_set k v d.
Proof.
  induction d as [|[k0 v0] d IH]; cbn [dict_set].
  - now rewrite String.eqb_refl.
  - destruct (String.eqb k k0) eqn:E; cbn [dict_set]; rewrite E; [reflexivity|].
    now rewrite IH.
Qed.

Lemma dict_set_ensure (V : Type) (k : string) (v v' : V) (d : dict V) :
  dict_set k v (if dict_mem k d then d else dict_set k v' d) = dict_set k v d.
Proof. destruct (dict_mem k d); [reflexivity | apply dict_set_set]. Qed.

Lemma dict_get_ensure (V : Type) (k : string) (v' : V) (d : dict V) :
  dict_get k (if dict_mem k d then d else dict_set k v' d)
  = Some (match dict_get k d with Some v => v | None => v' end).
Proof.
  unfold dict_mem. destruct (dict_get k d) eqn:E; [exact E | apply dict_get_set_same].
Qed.

(** One iteration of the loop sets one list of one subregion of one region. *)
Lemma add_country_set (regions : regions_dict) (row : loc_row) :
  add_country regions row
  = dict_set (or_other (loc_region row))
      (dict_set (or_other (loc_subregion row))
         (filed_at (or_other (loc_region row)) (or_other (loc_subregion row)) regions
          ++ [leaf_of row])
         (subs_of (or_other (loc_region row)) regions))
      regions.
Proof.
  unfold add_country, filed_at, subs_of, leaf_of.
  set (r := or_other (loc_region row)). set (s := or_other (loc_subregion row)).
  rewrite dict_get_ensure, dict_set_ensure.
  set (subs := match dict_get r regions with Some v => v | None => [] end).
  now rewrite dict_get_ensure, dict_set_ensure.
Qed.

Lemma subs_of_add (regions : regions_dict) (row : loc_row) (r : string) :
  subs_of r (add_country regions row)
  = if String.eqb (or_other (loc_region row)) r
    then dict_set (or_other (loc_subregion row))
           (filed_at r (or_other (loc_subregion row)) regions ++ [leaf_of row])
           (subs_of r regions)
    else subs_of r regions.
Proof.
  rewrite add_country_set. unfold subs_of at 1.
  destruct (String.eqb_spec (or_other (loc_region row)) r) as [<- | Hn].
  - now rewrite dict_get_set_same.
  - now rewrite dict_get_set_other.
Qed.

(** What one iteration files, and where. *)
Lemma filed_at_add (regions : regions_dict) (row : loc_row) (r s : string) :
  filed_at r s (add_country regions row)
  = if filed_under r s row
    then filed_at r s regions ++ [leaf_of row]
    else filed_at r s regions.
Proof.
  unfold filed_at at 1. rewrite subs_of_add. unfold filed_under.
  destruct (String.eqb_spec (or_other (loc_region row)) r) as [<- | Hn];
    cbn [andb]; [|reflexivity].
  destruct (String.eqb_spec (or_other (loc_subregion row)) s) as [<- | Hs].
  - now rewrite dict_get_set_same.
  - now rewrite dict_get_set_other.
Qed.

Lemma filed_at_fold (rows : list loc_row) (regions : regions_dict) (r s : string) :
  filed_at r s (fold_left add_country rows regions)
  = filed_at r s regions ++ map leaf_of (filter (filed_under r s) rows).
Proof.
  revert regions. induction rows as [|row rows IH]; intros regions;
    cbn [fold_left filter map].
  - now rewrite app_nil_r.
  - rewrite IH, filed_at_add. destruct (filed_under r s row); cbn [map]; [|reflexivity].
    now rewrite <- app_assoc.
Qed.

(** Reading the tree is reading [regions]. *)
Lemma children_of_nodes (regions : regions_dict) (r s : string) :
  children_of r s (region_nodes regions) = filed_at r s regions.
Proof.
  unfold children_of, filed_at, subs_of, region_nodes.
  induction regions as [|[r' subs] regions IH]; cbn [map find dict_get fst snd rn_name];
    [reflexivity|].
  destruct (String.eqb r r'); [|exact IH]. cbn [rn_children].
  clear IH. induction subs as [|[s' cl] subs IH]; cbn [map find dict_get fst snd sn_name];
    [reflexivity|].
  destruct (String.eqb s s'); [reflexivity | exact IH].
Qed.

Lemma leaves_nodes (regions : regions_dict) :
  leaves (region_nodes regions) = all_countries regions.
Proof.
  unfold leaves, all_countries, region_nodes. rewrite flat_map_concat_map, map_map.
  rewrite flat_map_concat_map. f_equal. apply map_ext. intros [r subs].
  cbn [rn_children fst snd]. rewrite !flat_map_concat_map, map_map. reflexivity.
Qed.

(** One iteration adds one leaf and keeps the others. *)
Lemma all_countries_add (regions : regions_dict) (row : loc_row) :
  Permutation (all_countries (add_country regions row))
              (all_countries regions ++ [leaf_of row]).
Proof.
  rewrite add_country_set. unfold all_countries.
  set (r := or_other (loc_region row)). set (s := or_other (loc_subregion row)).
  apply (@dict_set_values (dict (list country_node)) country_node
           (fun subs => flat_map (fun sc => snd sc) subs) r _ regions [leaf_of row]).
  cbv beta.
  replace (match dict_get r regions with
           | Some v0 => flat_map (fun sc : string * list country_node => snd sc) v0
           | None => []
           end)
    with (flat_map (fun sc : string * list country_node => snd sc) (subs_of r regions))
    by (unfold subs_of; now destruct (dict_get r regions)).
  apply (@dict_set_values (list country_node) country_node (fun cl => cl)
           s _ (subs_of r regions) [leaf_of row]).
  unfold filed_at. destruct (dict_get s (subs_of r regions)); apply Permutation_refl.
Qed.

Lemma all_countries_fold (rows : list loc_row) (regions : regions_dict) :
  Permutation (all_countries (fold_left add_country rows regions))
              (all_countries regions ++ map leaf_of rows).
Proof.
  revert regions. induction rows as [|row rows IH]; intros regions; cbn [fold_left map].
  - now rewrite app_nil_r.
  - rewrite IH, all_countries_add, <- app_assoc. apply Permutation_refl.
Qed.

End HierarchyFacts.

Section HierarchyShape.

Lemma dict_set_nonempty (V : Type) (k : string) (v : V) (d : dict V) :
  dict_set k v d <> [].
Proof.
  destruct d as [|[k' v'] d]; cbn [dict_set]; [discriminate|].
  destruct (String.eqb k k'); discriminate.
Qed.

Lemma subs_of_well_formed (regions : regions_dict) (r : string) :
  well_formed regions ->
  NoDup (map fst (subs_of r regions))
  /\ forall s cl, dict_get s (subs_of r regions) = Some cl -> cl <> [].
Proof.
  intros [_ H]. unfold subs_of. destruct (dict_get r regions) as [subs|] eqn:E.
  - destruct (H r subs E) as [_ [H1 H2]]. now split.
  - split; [constructor | discriminate].
Qed.

(** The loop keeps [regions] well formed. *)
Lemma add_country_well_formed (regions : regions_dict) (row : loc_row) :
  well_formed regions -> well_formed (add_country regions row).
Proof.
  intros W. destruct (subs_of_well_formed (or_other (loc_region row)) W) as [Hnd Hne].
  rewrite add_country_set. destruct W as [W1 W2]. split.
  - now apply dict_set_NoDup.
  - intros r subs. destruct (String.eqb_spec (or_other (loc_region row)) r) as [<- | Hn].
    + rewrite dict_get_set_same. intros E. injection E as <-.
      split; [apply dict_set_nonempty|]. split; [now apply dict_set_NoDup|].
      intros s cl.
      destruct (String.eqb_spec (or_other (loc_subregion row)) s) as [<- | Hs].
      * rewrite dict_get_set_same. intros E. injection E as <-.
        intros E. now apply app_eq_nil in E.
      * rewrite dict_get_set_other by assumption. apply Hne.
    + rewrite dict_get_set_other by assumption. apply W2.
Qed.

Lemma build_regions_well_formed (rows : list loc_row) :
  well_formed (build_regions rows).
Proof.
  unfold build_regions.
  assert (H : forall regions, well_formed regions ->
                              well_formed (fold_left add_country rows regions)).
  { induction rows as [|row rows IH]; intros regions W; cbn [fold_left]; [assumption|].
    now apply IH, add_country_well_formed. }
  apply H. split; [constructor | discriminate].
Qed.

(** *** The order of the regions *)

Lemma filter_filter (A : Type) (f g : A -> bool) (l : list A) :
  filter f (filter g l) = filter (fun x => g x && f x) l.
Proof.
  induction l as [|x l IH]; cbn [filter]; [reflexivity|].
  destruct (g x); cbn [filter andb]; [|exact IH]. now rewrite IH.
Qed.

Lemma existsb_eqb_In (K : list string) (x : string) :
  existsb (String.eqb x) K = true <-> In x K.
Proof.
  rewrite existsb_exists. split.
  - intros [y [Hy E]]. apply String.eqb_eq in E. now subst.
  - intros H. exists x. split; [assumption | apply String.eqb_refl].
Qed.

Lemma keys_add (regions : regions_dict) (row : loc_row) :
  map fst (add_country regions row)
  = if dict_mem (or_other (loc_region row)) regions
    then map fst regions
    else map fst regions ++ [or_other (loc_region row)].
Proof. rewrite add_country_set. apply dict_set_keys. Qed.

Lemma keys_fold (rows : list loc_row) (regions : regions_dict) :
  map fst (fold_left add_country rows regions)
  = map fst regions
    ++ filter (not_in (map fst regions))
         (first_seen (map (fun row => or_other (loc_region row)) rows)).
Proof.
  revert regions. induction rows as [|row rows IH]; intros regions;
    cbn [fold_left map first_seen filter].
  - now rewrite app_nil_r.
  - rewrite IH, keys_add. set (r0 := or_other (loc_region row)).
    set (X := first_seen (map (fun row => or_other (loc_region row)) rows)).
    set (K := map fst regions).
    destruct (dict_mem r0 regions) eqn:E.
    + assert (Hin : In r0 K) by now apply dict_mem_In.
      assert (E0 : not_in K r0 = false).
      { unfold not_in. apply negb_false_iff. now apply existsb_eqb_In. }
      rewrite E0. f_equal. rewrite filter_filter. apply filter_ext. intros x.
      destruct (String.eqb_spec x r0) as [-> | Hn]; cbn [negb andb]; [now rewrite E0 | reflexivity].
    + assert (Hin : ~ In r0 K).
      { intros H. apply dict_mem_In in H. congruence. }
      assert (E0 : not_in K r0 = true).
      { unfold not_in. apply negb_true_iff. destruct (existsb (String.eqb r0) K) eqn:E1;
          [|reflexivity]. apply existsb_eqb_In in E1. contradiction. }
      rewrite E0, <- app_assoc. cbn [app]. f_equal. f_equal.
      rewrite filter_filter. apply filter_ext. intros x. unfold not_in.
      rewrite existsb_app. cbn [existsb]. rewrite orb_false_r, negb_orb.
      apply andb_comm.
Qed.

End HierarchyShape.

Section HierarchyOrder.

Lemma filter_not_in_nil (l : list string) : filter (not_in []) l = l.
Proof. apply filter_all. reflexivity. Qed.

Lemma subs_keys_fold (rows : list loc_row) (regions : regions_dict) (r : string) :
  map fst (subs_of r (fold_left add_country rows regions))
  = map fst (subs_of r regions)
    ++ filter (not_in (map fst (subs_of r regions)))
         (first_seen (map subregion_of
                          (filter (fun row => String.eqb (region_of row) r) rows))).
Proof.
  revert regions. induction rows as [|row rows IH]; intros regions;
    cbn [fold_left filter].
  - cbn [map first_seen filter]. now rewrite app_nil_r.
  - rewrite IH, subs_of_add. fold (region_of row).
    destruct (String.eqb (region_of row) r); [|reflexivity].
    cbn [map first_seen filter]. fold (subregion_of row).
    set (s0 := subregion_of row). set (S := subs_of r regions).
    set (X := first_seen _). rewrite dict_set_keys. set (K := map fst S).
    destruct (dict_mem s0 S) eqn:E.
    + assert (E0 : not_in K s0 = false).
      { unfold not_in. apply negb_false_iff, existsb_eqb_In. now apply dict_mem_In. }
      rewrite E0. f_equal. rewrite filter_filter. apply filter_ext. intros x.
      destruct (String.eqb_spec x s0) as [-> | Hn]; cbn [negb andb];
        [now rewrite E0 | reflexivity].
    + assert (E0 : not_in K s0 = true).
      { unfold not_in. apply negb_true_iff.
        destruct (existsb (String.eqb s0) K) eqn:E1; [|reflexivity].
        apply existsb_eqb_In, dict_mem_In in E1. congruence. }
      rewrite E0, <- app_assoc. cbn [app]. f_equal. f_equal.
      rewrite filter_filter. apply filter_ext. intros x. unfold not_in.
      rewrite existsb_app. cbn [existsb]. rewrite orb_false_r, negb_orb.
      apply andb_comm.
Qed.

Lemma region_nodes_names (regions : regions_dict) :
  map rn_name (region_nodes regions) = map fst regions.
Proof. unfold region_nodes. rewrite map_map. now apply map_ext. Qed.

Lemma region_nodes_In (regions : regions_dict) (n : region_node) :
  NoDup (map fst regions) -> In n (region_nodes regions) ->
  rn_id n = rn_name n
  /\ dict_get (rn_name n) regions = Some (subs_of (rn_name n) regions)
  /\ rn_children n
     = map (fun sc => SubregionNode (fst sc) (fst sc) (snd sc))
           (subs_of (rn_name n) regions).
Proof.
  intros Hnd Hin. unfold region_nodes in Hin. apply in_map_iff in Hin.
  destruct Hin as [[r subs] [<- Hin]]. cbn [rn_id rn_name rn_children fst snd].
  apply dict_In_get in Hin; [|assumption].
  unfold subs_of, regions_dict, dict in *. rewrite Hin. now repeat split.
Qed.

Lemma children_of_rows (rows : list loc_row) (r s : string) :
  children_of r s (h_children (hierarchy rows))
  = map leaf_of (filter (filed_under r s) rows).
Proof.
  cbn [hierarchy h_children]. rewrite children_of_nodes. unfold build_regions.
  now rewrite filed_at_fold.
Qed.

Lemma leaves_rows (rows : list loc_row) :
  Permutation (leaves (h_children (hierarchy rows))) (map leaf_of rows).
Proof.
  cbn [hierarchy h_children]. rewrite leaves_nodes. unfold build_regions.
  apply (all_countries_fold rows []).
Qed.

End HierarchyOrder.

(** X10 (filing of the countries).  In the tree, the countries listed under
    region [r] and subregion [s] are exactly the rows of [merged_locs] whose
    region is [r] and whose subregion is [s] (a missing one counting as
    "Other"), in the order of the rows; a pair without such a row has no
    node. *)
Theorem hierarchy_children_of (rows : list loc_row) (r s : string) :
  children_of r s (h_children (hierarchy rows))
  = map leaf_of (filter (filed_under r s) rows).
Proof. apply children_of_rows. Qed.

(** X11 (shape of the tree).  No two regions of the tree have the same name;
    every region has at least one subregion and no two of its subregions
    have the same name; every subregion lists at least one country; and the
    [id] of a region or subregion node is its [name]. *)
Theorem hierarchy_well_formed (rows : list loc_row) :
  NoDup (map rn_name (h_children (hierarchy rows)))
  /\ Forall region_node_ok (h_children (hierarchy rows)).
Proof.
  cbn [hierarchy h_children].
  pose proof (build_regions_well_formed rows) as [W1 W2].
  split; [now rewrite region_nodes_names|].
  apply Forall_forall. intros n Hn.
  destruct (@region_nodes_In (build_regions rows) n W1 Hn) as [Hid [Hget Hch]].
  destruct (W2 (rn_name n) _ Hget) as [Hne [Hnd Hcl]].
  set (S := subs_of (rn_name n) (build_regions rows)) in *.
  unfold region_node_ok. rewrite Hch. split; [assumption|]. split.
  - destruct S; [congruence | discriminate].
  - split.
    + rewrite map_map. cbn [sn_name]. exact Hnd.
    + apply Forall_forall. intros n' Hn'. apply in_map_iff in Hn'.
      destruct Hn' as [[s cl] [<- Hin]]. cbn [sn_id sn_name sn_children fst snd].
      split; [reflexivity|]. apply (Hcl s). now apply dict_In_get.
Qed.

(** X12 (no country lost).  The leaves of the tree are the rows of
    [merged_locs], each exactly once, as pairs of country name and
    federation code: the tree has as many leaves as the table has rows. *)
Theorem hierarchy_leaves (rows : list loc_row) :
  Permutation (leaves (h_children (hierarchy rows))) (map leaf_of rows)
  /\ List.length (leaves (h_children (hierarchy rows))) = List.length rows.
Proof.
  pose proof (leaves_rows rows) as P.
  split; [exact P|]. rewrite (Permutation_length P). apply length_map.
Qed.

(** X13 (order of the nodes).  The regions of the tree stand in the order in
    which they first appear in [merged_locs] (a missing region counting as
    "Other"), and the subregions of a region stand in the order in which
    they first appear among the rows of that region. *)
Theorem hierarchy_node_order (rows : list loc_row) :
  map rn_name (h_children (hierarchy rows)) = first_seen (map region_of rows)
  /\ Forall (fun n =>
               map sn_name (rn_children n)
               = first_seen
                   (map subregion_of
                        (filter (fun row => String.eqb (region_of row) (rn_name n)) rows)))
            (h_children (hierarchy rows)).
Proof.
  cbn [hierarchy h_children]. split.
  - rewrite region_nodes_names. unfold build_regions. rewrite keys_fold.
    cbn [map app]. apply filter_not_in_nil.
  - pose proof (build_regions_well_formed rows) as [W1 _].
    apply Forall_forall. intros n Hn.
    destruct (@region_nodes_In (build_regions rows) n W1 Hn) as [_ [_ Hch]]. rewrite Hch, map_map.
    cbn [sn_name]. unfold build_regions. rewrite subs_keys_fold.
    cbn [subs_of dict_get map app]. apply filter_not_in_nil.
Qed.

(* ================================================================== *)
(** ** The joins *)

Section Joins.

Lemma cell_eqb_eq (a c : cell) : cell_eqb a c = true <-> a = c.
Proof.
  destruct a as [x|], c as [y|]; simpl; try (split; [discriminate | congruence]).
  - rewrite String.eqb_eq. split; congruence.
  - tauto.
Qed.

Lemma cell_eqb_refl (a : cell) : cell_eqb a a = true.
Proof. now apply cell_eqb_eq. Qed.

(** Among rows with pairwise distinct keys at most one has a given key. *)
Lemma filter_key_unique (A : Type) (key : A -> cell) (k : cell) (l : list A) :
  NoDup (map key l) ->
  filter (fun x => cell_eqb k (key x)) l
  = match find (fun x => cell_eqb k (key x)) l with Some x => [x] | None => [] end.
Proof.
  induction l as [|x l IH]; cbn [map filter find]; [reflexivity|].
  intros H. inversion H as [|? ? Hx Hnd]; subst.
  destruct (cell_eqb k (key x)) eqn:E; [|now apply IH].
  f_equal. apply cell_eqb_eq in E. subst k.
  rewrite IH by assumption.
  destruct (find (fun y => cell_eqb (key x) (key y)) l) as [y|] eqn:F; [|reflexivity].
  apply find_some in F. destruct F as [Hy Ey]. apply cell_eqb_eq in Ey.
  exfalso. apply Hx. rewrite Ey. now apply in_map.
Qed.

Lemma flat_map_pointwise (A B : Type) (f g : A -> list B) (l : list A) :
  (forall x, Permutation (f x) (g x)) -> Permutation (flat_map f l) (flat_map g l).
Proof.
  intros Hfg. induction l as [|x l IH]; cbn [flat_map]; [constructor|].
  now apply Permutation_app.
Qed.

Lemma flat_map_perm (A B : Type) (g : A -> list B) (l l' : list A) :
  Permutation l l' -> Permutation (flat_map g l) (flat_map g l').
Proof.
  induction 1 as [|x l l' _ IH|x y l|l l' l'' _ IH1 _ IH2]; cbn [flat_map].
  - constructor.
  - now apply Permutation_app_head.
  - rewrite !app_assoc. apply Permutation_app_tail, Permutation_app_comm.
  - now apply Permutation_trans with (flat_map g l').
Qed.

(** The join does not depend on the order of either table, up to the order
    of its own rows. *)
Lemma final_df_of_perm (rs rs' : list ratings_row) (ps ps' : list players_row) :
  Permutation rs rs' -> Permutation ps ps' ->
  Permutation (final_df_of rs ps) (final_df_of rs' ps').
Proof.
  intros Hr Hp. unfold final_df_of.
  apply Permutation_trans with
    (flat_map (fun r => map (fun p => Row (rt_month r) (pl_fed p) (rt_rating r))
                            (filter (fun p => cell_eqb (rt_id r) (pl_id p)) ps')) rs).
  - apply flat_map_pointwise. intros r. now apply Permutation_map, Permutation_filter.
  - now apply flat_map_perm.
Qed.

(** With pairwise distinct player ids a rating joins at most one player. *)
Lemma final_df_of_unique (rs : list ratings_row) (ps : list players_row) :
  NoDup (map pl_id ps) ->
  final_df_of rs ps
  = flat_map (fun r => match find (fun p => cell_eqb (rt_id r) (pl_id p)) ps with
                       | Some p => [Row (rt_month r) (pl_fed p) (rt_rating r)]
                       | None => []
                       end) rs.
Proof.
  intros H. unfold final_df_of. apply flat_map_ext. intros r.
  rewrite (@filter_key_unique players_row pl_id (rt_id r) ps H).
  now destruct (find (fun p => cell_eqb (rt_id r) (pl_id p)) ps).
Qed.

End Joins.

(** X14 (ratings of unknown players).  When no player id stands twice in
    [players], the join keeps the ratings of known players and nothing
    else: [final_df] has exactly one row per rating whose id is the id of a
    player, with that rating and month, in the order of [ratings], and no
    row for a rating of an unknown id. *)
Theorem final_df_known_players (rs : list ratings_row) (ps : list players_row) :
  NoDup (map pl_id ps) ->
  map (fun row => (month row, rating row)) (final_df_of rs ps)
  = map (fun r => (rt_month r, rt_rating r))
        (filter (fun r => existsb (fun p => cell_eqb (rt_id r) (pl_id p)) ps) rs)
  /\ (List.length (final_df_of rs ps) <= List.length rs)%nat.
Proof.
  intros H. rewrite (@final_df_of_unique rs ps H).
  assert (E : map (fun row => (month row, rating row))
                  (flat_map (fun r => match find (fun p => cell_eqb (rt_id r) (pl_id p)) ps with
                                      | Some p => [Row (rt_month r) (pl_fed p) (rt_rating r)]
                                      | None => []
                                      end) rs)
              = map (fun r => (rt_month r, rt_rating r))
                    (filter (fun r => existsb (fun p => cell_eqb (rt_id r) (pl_id p)) ps) rs)).
  { induction rs as [|r rs IH]; cbn [flat_map filter map]; [reflexivity|].
    rewrite map_app, IH.
    destruct (find (fun p => cell_eqb (rt_id r) (pl_id p)) ps) as [p|] eqn:F.
    - apply find_some in F. destruct F as [Hp Ep].
      assert (X : existsb (fun p => cell_eqb (rt_id r) (pl_id p)) ps = true)
        by (apply existsb_exists; eauto).
      now rewrite X.
    - assert (X : existsb (fun p => cell_eqb (rt_id r) (pl_id p)) ps = false).
      { destruct (existsb (fun p => cell_eqb (rt_id r) (pl_id p)) ps) eqn:X; [|reflexivity].
        apply existsb_exists in X. destruct X as [p [Hp Ep]].
        pose proof (find_none _ _ F p Hp) as N. simpl in N. congruence. }
      now rewrite X. }
  split; [exact E|].
  apply (f_equal (@List.length _)) in E. rewrite !length_map in E. rewrite E.
  apply filter_length_le.
Qed.

Lemma final_df_known_players_witness :
  NoDup (map pl_id sample_players)
  /\ map (fun row => (month row, rating row)) (final_df_of sample_ratings sample_players)
     = [(201501%Z, Fin 1000); (201501%Z, Fin 1000); (201502%Z, Fin 1500)].
Proof.
  assert (H : NoDup (map pl_id sample_players)).
  { repeat constructor; simpl; intuition discriminate. }
  split; [exact H|].
  destruct (@final_df_known_players sample_ratings sample_players H) as [E _].
  rewrite E. reflexivity.
Defined.



(* ================================================================== *)
(** ** From the two location tables to the tree *)

Section Locations.

Lemma merged_locs_rows_of (countries : list countries_row) (iso3 : list iso3_row) :
  merged_locs countries iso3 = flat_map (rows_of iso3) countries.
Proof. reflexivity. Qed.

Lemma rows_of_leaf (iso3 : list iso3_row) (c : countries_row) (row : loc_row) :
  In row (rows_of iso3 c) -> leaf_of row = country_leaf c.
Proof.
  unfold rows_of.
  destruct (filter (fun i => cell_eqb (alpha3 c) (iso_alpha3 i)) iso3) as [|i hits].
  - intros [<- | []]. reflexivity.
  - intros H. now in_map_inv H j.
Qed.

Lemma rows_of_unmatched (iso3 : list iso3_row) (c : countries_row) :
  (forall i, In i iso3 -> cell_eqb (alpha3 c) (iso_alpha3 i) = false) ->
  rows_of iso3 c = [LocRow (ioc c) (country c) None None].
Proof.
  intros H. unfold rows_of.
  destruct (filter (fun i => cell_eqb (alpha3 c) (iso_alpha3 i)) iso3) as [|i hits] eqn:E;
    [reflexivity|].
  assert (Hi : In i (filter (fun i => cell_eqb (alpha3 c) (iso_alpha3 i)) iso3))
    by (rewrite E; now left).
  apply filter_In in Hi. destruct Hi as [Hi Ei]. rewrite (H i Hi) in Ei. discriminate.
Qed.

Lemma rows_of_matched (iso3 : list iso3_row) (c : countries_row) (i : iso3_row) :
  In i iso3 -> alpha3 c = iso_alpha3 i ->
  In (LocRow (ioc c) (country c) (iso_subregion i) (iso_region i)) (rows_of iso3 c).
Proof.
  intros Hi E. unfold rows_of.
  assert (Hin : In i (filter (fun i => cell_eqb (alpha3 c) (iso_alpha3 i)) iso3)).
  { apply filter_In. split; [assumption | now apply cell_eqb_eq]. }
  destruct (filter (fun i => cell_eqb (alpha3 c) (iso_alpha3 i)) iso3) as [|j hits];
    [destruct Hin|].
  apply (in_map (fun i => LocRow (ioc c) (country c) (iso_subregion i) (iso_region i))
                _ _ Hin).
Qed.

(** With pairwise distinct ISO codes a country gives exactly one row. *)
Lemma rows_of_unique (iso3 : list iso3_row) (c : countries_row) :
  NoDup (map iso_alpha3 iso3) -> map leaf_of (rows_of iso3 c) = [country_leaf c].
Proof.
  intros H. unfold rows_of.
  rewrite (@filter_key_unique iso3_row iso_alpha3 (alpha3 c) iso3 H).
  now destruct (find (fun x => cell_eqb (alpha3 c) (iso_alpha3 x)) iso3).
Qed.

Lemma filed_leaf (rows : list loc_row) (row : loc_row) :
  In row rows ->
  In (leaf_of row)
     (children_of (region_of row) (subregion_of row) (h_children (hierarchy rows))).
Proof.
  intros H. rewrite children_of_rows. apply in_map. apply filter_In.
  split; [assumption|]. unfold filed_under, region_of, subregion_of.
  now rewrite !String.eqb_refl.
Qed.

End Locations.






(* ================================================================== *)
(** ** A shift of all the ratings *)

Section Shift.

Lemma Qsum_ext (A : Type) (f g : A -> Q) (l : list A) :
  (forall x, In x l -> f x == g x) -> Qsum (map f l) == Qsum (map g l).
Proof.
  induction l as [|x l IH]; intros H; [reflexivity|].
  cbn [map]. change (f x + Qsum (map f l) == g x + Qsum (map g l)).
  rewrite (H x (or_introl eq_refl)), IH; [reflexivity|].
  intros y Hy. apply H. now right.
Qed.

Lemma density_at_shift (values : list Q) (b g g' c : Q) :
  g' == g + c ->
  density_at (map (fun q => Qred (q + c)) values) b g' == density_at values b g.
Proof.
  intros Hg. unfold density_at. rewrite map_map, length_map.
  rewrite (Qsum_ext (fun x => kernel_weight ((g' - Qred (x + c)) / b))
                    (fun x => kernel_weight ((g - x) / b))); [reflexivity|].
  intros x _. apply kernel_weight_comp. rewrite Qred_correct, Hg.
  unfold Qdiv. ring.
Qed.

Lemma for_months_ext_kde (df df' : dataframe) (grid grid' : list f64) (bw : f64)
      (ms : list Z) (acc : f64) :
  (forall m, List.length (month_ratings df' m) = List.length (month_ratings df m)) ->
  (forall m, month_ratings df m <> [] ->
             kde_epanechnikov (month_ratings df' m) grid' bw
             = kde_epanechnikov (month_ratings df m) grid bw) ->
  for_months df' grid' bw ms acc = for_months df grid bw ms acc.
Proof.
  intros HL HK. revert acc. induction ms as [|m ms IH]; intros acc; [reflexivity|].
  cbn [for_months]. unfold loop_body. rewrite (HL m).
  destruct (0 <? List.length (month_ratings df m))%nat eqn:E; cbn [bind]; [|apply IH].
  rewrite HK by (intros Hn; rewrite Hn in E; discriminate).
  destruct (kde_epanechnikov (month_ratings df m) grid bw) as [c|e];
    cbn [bind]; [|reflexivity].
  destruct (np_max c) as [p|e]; cbn [bind]; [|reflexivity].
  destruct (fgt p acc); cbn [bind]; apply IH.
Qed.

Lemma month_ratings_shift (c : Q) (df : dataframe) (m : Z) :
  month_ratings (shift_ratings c df) m
  = map (fun x => fadd x (Fin c)) (month_ratings df m).
Proof.
  unfold month_ratings, shift_ratings.
  induction df as [|r df IH]; cbn [map filter month]; [reflexivity|].
  destruct (month r =? m)%Z; cbn [map rating]; now rewrite IH.
Qed.

Lemma shift_finite (c : Q) (qs : list Q) :
  map (fun x => fadd x (Fin c)) (map Fin qs) = map Fin (map (fun q => Qred (q + c)) qs).
Proof. rewrite !map_map. now apply map_ext. Qed.

Lemma grid_point_shift (s t s' t' c : Q) (num i : nat) :
  (2 <= num)%nat -> s' == s + c -> t' == t + c ->
  grid_point s' t' num i == grid_point s t num i + c.
Proof.
  intros Hn Hs Ht. unfold grid_point. rewrite Hs, Ht.
  assert (~ inject_Z (Z.of_nat (num - 1)) == 0) by (apply inject_nat_nonzero; lia).
  now field.
Qed.

(** The least and the greatest rating move with the shift. *)
Lemma series_min_shift (c : Q) (qs : list Q) (lo lo' : Q) :
  In lo qs -> (forall q, In q qs -> lo <= q) ->
  In lo' (map (fun q => Qred (q + c)) qs) ->
  (forall q, In q (map (fun q => Qred (q + c)) qs) -> lo' <= q) ->
  lo' == lo + c.
Proof.
  intros H1 H2 H3 H4. apply in_map_iff in H3. destruct H3 as [q [Eq Hq]].
  assert (A : lo' <= Qred (lo + c)).
  { apply H4. apply (in_map (fun q => Qred (q + c)) _ _ H1). }
  rewrite Qred_correct in A. pose proof (H2 q Hq) as B.
  assert (C : lo' == q + c) by (rewrite <- Eq; apply Qred_correct).
  lra.
Qed.

Lemma series_max_shift (c : Q) (qs : list Q) (hi hi' : Q) :
  In hi qs -> (forall q, In q qs -> q <= hi) ->
  In hi' (map (fun q => Qred (q + c)) qs) ->
  (forall q, In q (map (fun q => Qred (q + c)) qs) -> q <= hi') ->
  hi' == hi + c.
Proof.
  intros H1 H2 H3 H4. apply in_map_iff in H3. destruct H3 as [q [Eq Hq]].
  assert (A : Qred (hi + c) <= hi').
  { apply H4. apply (in_map (fun q => Qred (q + c)) _ _ H1). }
  rewrite Qred_correct in A. pose proof (H2 q Hq) as B.
  assert (C : hi' == q + c) by (rewrite <- Eq; apply Qred_correct).
  lra.
Qed.

End Shift.



(* ================================================================== *)
(** ** What the statistics read of the table *)

Section Columns.

Lemma month_ratings_columns (df : dataframe) (m : Z) :
  month_ratings df m
  = map snd (filter (fun mr => (fst mr =? m)%Z)
                    (map (fun r => (month r, rating r)) df)).
Proof.
  unfold month_ratings. induction df as [|r df IH]; cbn [map filter fst]; [reflexivity|].
  destruct (month r =? m)%Z; cbn [map snd]; now rewrite IH.
Qed.

End Columns.

(** X20 (the [fed] column).  The statistics read only the [month] and
    [rating] columns of [final_df]: two tables with the same months and
    ratings, row by row, give the same statistics, whatever their [fed]
    columns hold. *)
Theorem preprocess_ignores_fed (df df' : dataframe) :
  map (fun r => (month r, rating r)) df' = map (fun r => (month r, rating r)) df ->
  preprocess df' = preprocess df.
Proof.
  intros H.
  assert (Hr : ratings df' = ratings df).
  { assert (E : forall d, ratings d = map snd (map (fun r => (month r, rating r)) d))
      by (intros d; rewrite map_map; reflexivity).
    now rewrite !E, H. }
  assert (Hm : months df' = months df).
  { assert (E : forall d, map month d = map fst (map (fun r => (month r, rating r)) d))
      by (intros d; rewrite map_map; reflexivity).
    unfold months. now rewrite !E, H. }
  assert (Hmr : forall m, month_ratings df' m = month_ratings df m)
    by (intros m; now rewrite !month_ratings_columns, H).
  unfold preprocess, global_max_density, x_grid, grid_min, grid_max, min_r, max_r.
  rewrite Hr, Hm.
  rewrite (@for_months_ext df _ bandwidth df' (months df) (Fin 0) (fun m _ => Hmr m)).
  reflexivity.
Qed.

Lemma preprocess_ignores_fed_witness :
  map (fun r => (month r, rating r))
      [Row 201501 "FRA" (Fin 1000); Row 201502 "IND" (Fin 1500)]
  = map (fun r => (month r, rating r))
        [Row 201501 "USA" (Fin 1000); Row 201502 "USA" (Fin 1500)]
  /\ preprocess [Row 201501 "FRA" (Fin 1000); Row 201502 "IND" (Fin 1500)]
     = preprocess [Row 201501 "USA" (Fin 1000); Row 201502 "USA" (Fin 1500)].
Proof.
  split; [reflexivity|].
  apply (@preprocess_ignores_fed
           [Row 201501 "USA" (Fin 1000); Row 201502 "USA" (Fin 1500)]
           [Row 201501 "FRA" (Fin 1000); Row 201502 "IND" (Fin 1500)]).
  reflexivity.
Defined.
